(* lflag: configuration registry, sources and the deferred-initialisation
   scheduler of levenlabs/go-lflag, embedded shallowly.

   Go data is modelled as follows.
     string               -> string (a sequence of bytes)
     map[string]T         -> gmap string T
     []Param              -> list Param
     a pointer from new() -> a location (nat) into a heap of typed values
     (T, error) results   -> outcome T, which also records a panic and
                             os.Exit, the two ways a call may not return
     func()               -> callback, a small syntax of what a registered
                             function does that the scheduler can observe *)

From stdpp Require Import gmap strings list fin_maps pretty sorting.
From Stdlib Require Import Ascii ZArith Lia.

Local Open Scope string_scope.
Local Open Scope list_scope.
Local Open Scope nat_scope.

(* ------------------------------------------------------------------ *)
(* Results of calls                                                    *)
(* ------------------------------------------------------------------ *)

Inductive outcome (A : Type) : Type :=
  | Ok (a : A)             (* normal return, err == nil *)
  | Err (e : string)       (* normal return with a non-nil error *)
  | Panic (msg : string)   (* panic(...) unwinding through the caller *)
  | Exit (stdout : string) (* printfAndExit: text printed, os.Exit(0) *).
Arguments Ok {A} a.
Arguments Err {A} e.
Arguments Panic {A} msg.
Arguments Exit {A} stdout.

Definition obind {A B} (x : outcome A) (f : A → outcome B) : outcome B :=
  match x with
  | Ok a => f a
  | Err e => Err e
  | Panic msg => Panic msg
  | Exit s => Exit s
  end.

Notation "'let!' x ':=' c 'in' k" := (obind c (fun x => k))
  (at level 10, x name, c at level 100, k at level 200).

Definition is_Ok {A} (x : outcome A) : Prop :=
  match x with Ok _ => True | _ => False end.

(* ------------------------------------------------------------------ *)
(* The strings package, as far as the sources use it                   *)
(* ------------------------------------------------------------------ *)

Module strings.

(* strings.SplitN(s, sep, 2) for a one-byte separator: the text before
   the first separator and, when there is one, the text after it. *)
Fixpoint SplitN2 (sep : ascii) (s : string) : string * option string :=
  match s with
  | EmptyString => (EmptyString, None)
  | String c s' =>
      if decide (c = sep) then (EmptyString, Some s')
      else let r := SplitN2 sep s' in (String c (fst r), snd r)
  end.

(* strings.HasPrefix *)
Definition HasPrefix (s pre : string) : bool := String.prefix pre s.

(* strings.Replace(s, old, new, -1) for one-byte old and new *)
Fixpoint Replace1 (old new : ascii) (s : string) : string :=
  match s with
  | EmptyString => EmptyString
  | String c s' =>
      String (if decide (c = old) then new else c) (Replace1 old new s')
  end.

(* strings.Join *)
Fixpoint Join (l : list string) (sep : string) : string :=
  match l with
  | [] => ""
  | [x] => x
  | x :: l' => x +:+ sep +:+ Join l' sep
  end.

(* s[len(s)-1] *)
Fixpoint last_byte (s : string) : option ascii :=
  match s with
  | EmptyString => None
  | String c EmptyString => Some c
  | String _ s' => last_byte s'
  end.

(* s < t on Go strings: bytewise lexicographic *)
Definition lt (s t : string) : bool := String.ltb s t.

End strings.

(* Prefixed is strings.Join, leaving the empty strings out *)
Definition Prefixed (strs : list string) : string :=
  strings.Join (filter (λ s, s ≠ "") strs) "-".

Definition TAB : string := String (ascii_of_nat 9) EmptyString.
Definition NL : string := String (ascii_of_nat 10) EmptyString.
Definition EQ : ascii := ascii_of_nat 61.
Definition DASH : ascii := ascii_of_nat 45.
Definition UNDERSCORE : ascii := ascii_of_nat 95.

(* ------------------------------------------------------------------ *)
(* Param and the built-in ParamTypes                                   *)
(* ------------------------------------------------------------------ *)

Record Param := mkParam {
  ParamType : string;
  Name : string;
  Default : string;
  Usage : string;
  Required : bool
}.

(* p == q on structs compares every field *)
#[global] Instance Param_eq_dec : EqDecision Param.
Proof. solve_decision. Defined.

Definition ParamTypeString := "string".
Definition ParamTypeInt := "int".
Definition ParamTypeInt64 := "int64".
Definition ParamTypeBool := "bool".
Definition ParamTypeDuration := "duration".
Definition ParamTypeJSON := "json".

(* What a destination pointer points at.  VAny stands for a receiver of a
   type the package does not know (the rcv of JSON, or a custom type); its
   content is kept as the text it was last decoded from. *)
Inductive value :=
  | VString (s : string)
  | VInt (z : Z)
  | VInt64 (z : Z)
  | VBool (b : bool)
  | VDuration (d : Z)
  | VAny (j : string).

#[global] Instance value_eq_dec : EqDecision value.
Proof. solve_decision. Defined.

(* ParseFunc: func(string, interface{}) error.  The interface{} is a
   pointer; the function is given what it points at and answers with the
   new content, an error, or a panic (a failed type assertion). *)
Definition ParseFunc := string → value → outcome value.

(* JSONStringFunc: func(json.RawMessage) (string, error) *)
Definition JSONStringFunc := string → outcome string.

(* Library calls the package makes; they are not code of this repository. *)
Class GoLib := {
  strings_ToUpper : string → string;
  strings_ToLower : string → string;
  strconv_Quote : string → string;              (* the %q verb *)
  fmt_Printf : string → string;   (* what Printf(format) with no operands prints *)
  strconv_Atoi : string → outcome Z;
  strconv_Itoa : Z → string;
  Duration_String : Z → string;                  (* time.Duration.String *)
  fmt_Sprint : value → string;
  json_Marshal : value → outcome string;
  strconv_ParseInt64 : string → outcome Z;       (* ParseInt(s, 10, 64) *)
  time_ParseDuration : string → outcome Z;
  json_Unmarshal : string → value → outcome value;
  json_UnmarshalString : string → outcome string;
  (* json.Decoder.Decode into a map[string]json.RawMessage *)
  json_Decode : string → outcome (gmap string string)
}.

Definition type_assertion_failed : string := "interface conversion".

Section Parsers.
Context `{GoLib}.

Definition parseParamTypeString (val : string) (ptr : value) : outcome value :=
  match ptr with
  | VString _ => Ok (VString val)
  | _ => Panic type_assertion_failed
  end.

Definition parseParamTypeInt (val : string) (ptr : value) : outcome value :=
  let! vali := strconv_Atoi val in
  match ptr with
  | VInt _ => Ok (VInt vali)
  | _ => Panic type_assertion_failed
  end.

Definition parseParamTypeInt64 (val : string) (ptr : value) : outcome value :=
  let! vali := strconv_ParseInt64 val in
  match ptr with
  | VInt64 _ => Ok (VInt64 vali)
  | _ => Panic type_assertion_failed
  end.

Definition parseParamTypeBool (val : string) (ptr : value) : outcome value :=
  match ptr with
  | VBool _ =>
      Ok (VBool (bool_decide (val ≠ "") && bool_decide (val ≠ "false")))
  | _ => Panic type_assertion_failed
  end.

Definition parseParamTypeDuration (val : string) (ptr : value) : outcome value :=
  let! d := time_ParseDuration val in
  match ptr with
  | VDuration _ => Ok (VDuration d)
  | _ => Panic type_assertion_failed
  end.

Definition parseParamTypeJSON (val : string) (ptr : value) : outcome value :=
  json_Unmarshal val ptr.

Definition JSONStringAsIs (j : string) : outcome string := Ok j.

Definition JSONStringUnmarshal (j : string) : outcome string :=
  json_UnmarshalString j.

(* The three package-level tables.  CustomParamType is their only
   writer, so they travel together. *)
Record TypeTables := mkTables {
  paramTypeParsers : gmap string ParseFunc;
  paramTypeJSONStringers : gmap string JSONStringFunc;
  customParamTypeTypes : gmap string value   (* the zero value of the type *)
}.

(* reflect.TypeOf(examplePtr).Elem(), kept as the zero value reflect.New
   makes of it *)
Definition zero_of (v : value) : value :=
  match v with
  | VString _ => VString ""
  | VInt _ => VInt 0
  | VInt64 _ => VInt64 0
  | VBool _ => VBool false
  | VDuration _ => VDuration 0
  | VAny _ => VAny ""
  end.

Definition builtinTables : TypeTables :=
  {| paramTypeParsers :=
       <[ParamTypeString := parseParamTypeString]>
       (<[ParamTypeInt := parseParamTypeInt]>
       (<[ParamTypeInt64 := parseParamTypeInt64]>
       (<[ParamTypeBool := parseParamTypeBool]>
       (<[ParamTypeDuration := parseParamTypeDuration]>
       (<[ParamTypeJSON := parseParamTypeJSON]> ∅)))));
     paramTypeJSONStringers :=
       <[ParamTypeString := JSONStringUnmarshal]>
       (<[ParamTypeInt := JSONStringAsIs]>
       (<[ParamTypeBool := JSONStringAsIs]>
       (<[ParamTypeDuration := JSONStringUnmarshal]>
       (<[ParamTypeJSON := JSONStringAsIs]> ∅))));
     customParamTypeTypes := ∅ |}.

Definition CustomParamType (name : string) (examplePtr : value)
    (p : ParseFunc) (jp : JSONStringFunc) (t : TypeTables) : outcome TypeTables :=
  match paramTypeParsers t !! name with
  | Some _ => Panic ("lflag: paramType already defined: " +:+ name)
  | None =>
      Ok {| paramTypeParsers := <[name := p]> (paramTypeParsers t);
            paramTypeJSONStringers := <[name := jp]> (paramTypeJSONStringers t);
            customParamTypeTypes :=
            <[name := zero_of examplePtr]> (customParamTypeTypes t) |}
  end.

End Parsers.

(* ------------------------------------------------------------------ *)
(* Source, SourceStub and Sources                                      *)
(* ------------------------------------------------------------------ *)

(* What the process is started with, and the package variables that are
   set at build time or before Parse. *)
Record World := mkWorld {
  os_Args : list string;
  os_Environ : list string;
  os_Open : string → outcome string;   (* the content of the named file *)
  HelpPrefix : string;
  BuildCommit : string;
  BuildDate : string;
  BuildNumber : string;
  BuildGoVersion : string
}.

(* type Source interface { Parse([]Param) (map[string]string, error) } *)
Definition Source := list Param → outcome (gmap string string).

(* for k, v := range src { dst[k] = v } *)
Definition range_assign (src dst : gmap string string) : gmap string string :=
  map_fold (λ k v acc, <[k := v]> acc) dst src.

Definition SourceStub (ss : gmap string string) : Source := λ _, Ok ss.

Fixpoint Sources_loop (ss : list Source) (pp : list Param)
    (vals : gmap string string) : outcome (gmap string string) :=
  match ss with
  | [] => Ok vals
  | s :: ss' =>
      let! sm := s pp in
      Sources_loop ss' pp (range_assign sm vals)
  end.

Definition Sources (ss : list Source) : Source := λ pp, Sources_loop ss pp ∅.

(* ------------------------------------------------------------------ *)
(* The environment source                                              *)
(* ------------------------------------------------------------------ *)

Section Env.
Context `{GoLib}.

Definition envName (p : Param) : string :=
  strings.Replace1 DASH UNDERSCORE (strings_ToUpper (Name p)).

Definition envM_of (pp : list Param) : gmap string Param :=
  fold_left (λ envM p, <[envName p := p]> envM) pp ∅.

Fixpoint parseEnv_loop (envM : gmap string Param) (ee : list string)
    (ret : gmap string string) : outcome (gmap string string) :=
  match ee with
  | [] => Ok ret
  | e :: ee' =>
      let envParts := strings.SplitN2 EQ e in
      match snd envParts with
      | None => Err ("malformed environment variable: " +:+ strconv_Quote e)
      | Some v =>
          match envM !! fst envParts with
          | Some p => parseEnv_loop envM ee' (<[Name p := v]> ret)
          | None => parseEnv_loop envM ee' ret
          end
      end
  end.

Definition parseEnv (ee : list string) (pp : list Param)
    : outcome (gmap string string) :=
  parseEnv_loop (envM_of pp) ee ∅.

Definition sourceEnv (w : World) : Source := parseEnv (os_Environ w).

End Env.

(* ------------------------------------------------------------------ *)
(* The command-line source                                             *)
(* ------------------------------------------------------------------ *)

(* sort.Slice(s, less), by insertion.  sort.Slice is not stable: where two
   elements compare equal it may leave them in either order, and this is
   one of the orders it may produce. *)
Fixpoint sort_insert {A} (less : A → A → bool) (x : A) (l : list A) : list A :=
  match l with
  | [] => [x]
  | y :: l' => if less y x then y :: sort_insert less x l' else x :: l
  end.

Definition sort_Slice {A} (less : A → A → bool) (l : list A) : list A :=
  foldr (sort_insert less) [] l.

Section CLI.
Context `{GoLib}.
Variable w : World.

Definition orStr (s alt : string) : string :=
  if decide (s = "") then alt else s.

Definition Version : string :=
  "BuildCommit: " +:+ orStr (BuildCommit w) "<unset>" +:+ NL +:+
  "BuildDate: " +:+ orStr (BuildDate w) "<unset>" +:+ NL +:+
  "BuildNumber: " +:+ orStr (BuildNumber w) "<unset>" +:+ NL +:+
  "BuildGoVersion: " +:+ orStr (BuildGoVersion w) "<unset>" +:+ NL.

Definition bufParam (p : Param) : string :=
  TAB +:+ "--" +:+ Name p +:+
  (if decide (ParamType p = ParamTypeBool) then " (flag)" else "") +:+ NL +:+
  (if decide (Usage p ≠ "") then TAB +:+ TAB +:+ Usage p +:+ NL else "") +:+
  (if decide (Default p ≠ "")
   then TAB +:+ TAB +:+ "Default: " +:+ strconv_Quote (Default p) +:+ NL
   else if Required p then TAB +:+ TAB +:+ "(Required)" +:+ NL
   else TAB +:+ TAB +:+ "(Optional)" +:+ NL) +:+
  NL.

(* cliHelpStr sorts the slice it is handed, in place.  The result is
   what that slice holds afterwards, and the help text. *)
Definition cliHelpStr (pp : list Param) : list Param * string :=
  let pp := sort_Slice (λ a b, strings.lt (Name a) (Name b)) pp in
  let prefix :=
    if decide (HelpPrefix w ≠ "") then
      NL +:+ HelpPrefix w +:+
      (if decide (strings.last_byte (HelpPrefix w) ≠ Some (ascii_of_nat 10))
       then NL else "")
    else "" in
  (pp,
   prefix +:+ NL +:+
   foldr (λ p acc, bufParam p +:+ acc) "" pp +:+
   bufParam {| ParamType := ParamTypeBool; Name := "help"; Default := "";
               Usage := "Show this help message and exit"; Required := false |} +:+
   bufParam {| ParamType := ParamTypeBool; Name := "version"; Default := "";
               Usage := "Print out a build string and exit"; Required := false |}).

Definition cliM_of (pp : list Param) : gmap string Param :=
  fold_left (λ cliM p, <["--" +:+ Name p := p]> cliM) pp ∅.

(* What a bare boolean flag stands for *)
Definition bareBool (p : Param) : string :=
  if decide (Default p = "true") then "" else "true".

(* The for loop of parseCLI.  The first component of the result is the
   content of the caller's pp when the call ends. *)
Fixpoint parseCLI_loop (cliM : gmap string Param) (pp : list Param)
    (args : list string) (found : gmap string string) {struct args}
    : list Param * outcome (gmap string string) :=
  match args with
  | [] => (pp, Ok found)
  | arg :: args =>
      let argParts := strings.SplitN2 EQ arg in
      let argName := fst argParts in
      if decide (argName = "-h" ∨ argName = "--help") then
        let h := cliHelpStr pp in (fst h, Exit (fmt_Printf (snd h)))
      else if decide (argName = "-V" ∨ argName = "--version") then
        (pp, Exit (fmt_Printf Version))
      else
        match cliM !! argName with
        | None => parseCLI_loop cliM pp args found
        | Some p =>
            if decide (ParamType p = ParamTypeBool) then
              match snd argParts, args with
              | Some argVal, _ =>
                  parseCLI_loop cliM pp args (<[Name p := argVal]> found)
              | None, next :: args' =>
                  if negb (strings.HasPrefix next "-")
                  then parseCLI_loop cliM pp args' (<[Name p := next]> found)
                  else parseCLI_loop cliM pp args (<[Name p := bareBool p]> found)
              | None, [] =>
                  parseCLI_loop cliM pp args (<[Name p := bareBool p]> found)
              end
            else
              match snd argParts, args with
              | Some argVal, _ =>
                  parseCLI_loop cliM pp args (<[Name p := argVal]> found)
              | None, next :: args' =>
                  parseCLI_loop cliM pp args' (<[Name p := next]> found)
              | None, [] =>
                  parseCLI_loop cliM pp args (<[Name p := ""]> found)
              end
        end
  end.

Definition parseCLI (args : list string) (pp : list Param)
    : list Param * outcome (gmap string string) :=
  parseCLI_loop (cliM_of pp) pp args ∅.

(* sourceCLI.Parse: parseCLI(os.Args[1:], pp).  os.Args holds at least
   the program name; slicing an empty os.Args would panic. *)
Definition sourceCLI : Source := λ pp,
  match os_Args w with
  | [] => Panic "slice bounds out of range"
  | _ :: args => snd (parseCLI args pp)
  end.

End CLI.

(* ------------------------------------------------------------------ *)
(* The JSON-file source                                                *)
(* ------------------------------------------------------------------ *)

Definition nil_func_call : string := "invalid memory address or nil pointer dereference".

Section JSON.
Context `{GoLib}.
Variable w : World.
Variable t : TypeTables.

Definition paramName : string := "config-json-file".

Definition configFileParam : Param :=
  {| ParamType := ParamTypeString;
     Name := paramName;
     Default := "";
     Usage := "Name of json file to parse config object out of. Environment and CLI params overwrite json ones";
     Required := false |}.

(* for _, p := range pp { ... out[p.Name] = str } *)
Fixpoint sourceJSON_loop (jm : gmap string string) (pp : list Param)
    (out : gmap string string) : outcome (gmap string string) :=
  match pp with
  | [] => Ok out
  | p :: pp' =>
      match jm !! strings_ToLower (Name p) with
      | None => sourceJSON_loop jm pp' out
      | Some j =>
          if decide (j = "null") then sourceJSON_loop jm pp' out
          else
            match paramTypeJSONStringers t !! ParamType p with
            | None => Panic nil_func_call
            | Some stringer =>
                let! str := stringer j in
                sourceJSON_loop jm pp' (<[Name p := str]> out)
            end
      end
  end.

(* Which document is decoded: the file named by the inner source, else
   the test reader, else none. *)
Definition sourceJSON_reader (testJSONFile : option string)
    (m : gmap string string) : outcome (option string) :=
  let jsonConfigFile := default "" (m !! paramName) in
  if decide (jsonConfigFile ≠ "") then
    let! f := os_Open w jsonConfigFile in Ok (Some f)
  else
    match testJSONFile with
    | Some r => Ok (Some r)
    | None => Ok None
    end.

Definition sourceJSON (innerSrc : Source) (testJSONFile : option string)
    : Source := λ pp,
  let pp := pp ++ [configFileParam] in
  let! m := innerSrc pp in
  let! dec := sourceJSON_reader testJSONFile m in
  match dec with
  | None => Ok m
  | Some doc =>
      let! jm := json_Decode doc in
      let! out := sourceJSON_loop jm pp ∅ in
      Ok (range_assign m out)
  end.

Definition NewSourceJSON (inner : Source) : Source := sourceJSON inner None.

End JSON.

(* ------------------------------------------------------------------ *)
(* Do, spin and the callbacks                                          *)
(* ------------------------------------------------------------------ *)

(* A registered func(), by what the scheduler can see of it: it returns,
   it does something observable, or it calls Do and goes on. *)
Inductive callback :=
  | Return
  | Emit (e : string) (k : callback)
  | CallDo (fn : callback) (k : callback).

(* func() {}, the seed of spin's queue *)
Definition noop : callback := Return.

(* The spin goroutine.  Spinning dos: it sits in the select of its loop
   with the queue dos, and doneCh and callCh are open.  Stopped: it left
   the loop and closed doneCh and callCh.  Nothing else closes them, and
   spin does so without waiting for anyone once it has left the loop, so
   a Do that finds spin out of the loop finds doneCh closed by the time
   its select can make any progress. *)
Inductive spin_state :=
  | Spinning (dos : list callback)
  | Stopped.

(* The loop condition: for len(dos) > 0 *)
Definition spin_loop (dos : list callback) : spin_state :=
  match dos with
  | [] => Stopped
  | _ => Spinning dos
  end.

(* go spin() *)
Definition go_spin : spin_state := spin_loop [noop].

(* case fn, ok := <-queueCh; ok: dos = append(dos, fn) *)
Definition queue_send (fn : callback) (dos : list callback) : spin_state :=
  spin_loop (dos ++ [fn]).

(* case callCh <- dos[0]: dos = dos[1:]; a receive on the closed callCh
   yields nothing and ends the range loop of Parse. *)
Definition call_recv (s : spin_state) : option (callback * spin_state) :=
  match s with
  | Spinning (fn :: dos) => Some (fn, spin_loop dos)
  | Spinning [] => None
  | Stopped => None
  end.

(* Running fn(): the scheduler seen by later calls, and what was emitted.
   The CallDo case is Do: with doneCh closed the function is called on
   the spot, otherwise it is sent on queueCh. *)
Fixpoint run (fn : callback) (s : spin_state) (log : list string)
    : spin_state * list string :=
  match fn with
  | Return => (s, log)
  | Emit e k => run k s (log ++ [e])
  | CallDo g k =>
      match s with
      | Stopped => let r := run g s log in run k (fst r) (snd r)
      | Spinning dos => run k (queue_send g dos) log
      end
  end.

Definition Do_sched (fn : callback) (s : spin_state) (log : list string)
    : spin_state * list string :=
  match s with
  | Stopped => run fn s log
  | Spinning dos => (queue_send fn dos, log)
  end.

(* for fn := range callCh { fn() } *)
Fixpoint drain (fuel : nat) (s : spin_state) (log : list string)
    : option (spin_state * list string) :=
  match call_recv s with
  | None => Some (s, log)
  | Some (fn, s') =>
      match fuel with
      | O => None
      | S fuel' => let r := run fn s' log in drain fuel' (fst r) (snd r)
      end
  end.

Fixpoint weight (fn : callback) : nat :=
  match fn with
  | Return => 1
  | Emit _ k => S (weight k)
  | CallDo g k => S (weight g + weight k)
  end.

Definition queue_weight (s : spin_state) : nat :=
  match s with
  | Spinning dos => list_sum (weight <$> dos)
  | Stopped => 0
  end.

(* The range loop with fuel for every call that can still be made. *)
Definition drain_all (s : spin_state) (log : list string)
    : spin_state * list string :=
  default (s, log) (drain (queue_weight s) s log).

(* ------------------------------------------------------------------ *)
(* The package state: m, the tables, the heap and the scheduler        *)
(* ------------------------------------------------------------------ *)

Definition loc := nat.

(* type param struct { Param; ptr interface{} } *)
Record param := mkparam {
  param_Param : Param;
  ptr : loc
}.

Record State := mkState {
  m : gmap string param;          (* var m = map[string]param{} *)
  heap : gmap loc value;          (* what the handed-out pointers point at *)
  tables : TypeTables;
  spin : spin_state;              (* queueCh, doneCh, callCh and spin *)
  log : list string               (* what the callbacks run so far emitted *)
}.

Definition set_m (f : gmap string param) (st : State) : State :=
  {| m := f; heap := heap st; tables := tables st; spin := spin st; log := log st |}.

Definition set_heap (h : gmap loc value) (st : State) : State :=
  {| m := m st; heap := h; tables := tables st; spin := spin st; log := log st |}.

Definition set_sched (r : spin_state * list string) (st : State) : State :=
  {| m := m st; heap := heap st; tables := tables st; spin := fst r; log := snd r |}.

(* new(T): a fresh location holding the zero value of T *)
Definition new (zero : value) (st : State) : loc * State :=
  let l := fresh (dom (heap st)) in (l, set_heap (<[l := zero]> (heap st)) st).

Section Package.
Context `{GoLib}.

Definition differs_msg (p : Param) : string :=
  "param named " +:+ strconv_Quote (Name p) +:+
  " already exists and differs from this new one".

Definition newParam (p : Param) (ptr0 : loc) (st : State) : outcome (loc * State) :=
  match m st !! Name p with
  | Some pp =>
      if decide (param_Param pp ≠ p) then Panic (differs_msg p)
      else Ok (ptr pp, set_m (<[Name p := pp]> (m st)) st)
  | None =>
      let pp := {| param_Param := p; ptr := ptr0 |} in
      Ok (ptr pp, set_m (<[Name p := pp]> (m st)) st)
  end.

Definition declare (zero : value) (p : Param) (st : State) : outcome (loc * State) :=
  let a := new zero st in newParam p (fst a) (snd a).

Definition String (name value usage : string) : State → outcome (loc * State) :=
  declare (VString "")
    {| ParamType := ParamTypeString; Name := name; Default := value;
       Usage := usage; Required := false |}.

Definition RequiredString (name usage : string) : State → outcome (loc * State) :=
  declare (VString "")
    {| ParamType := ParamTypeString; Name := name; Default := "";
       Usage := usage; Required := true |}.

Definition Int (name : string) (value : Z) (usage : string)
    : State → outcome (loc * State) :=
  declare (VInt 0)
    {| ParamType := ParamTypeInt; Name := name; Default := strconv_Itoa value;
       Usage := usage; Required := false |}.

Definition RequiredInt (name usage : string) : State → outcome (loc * State) :=
  declare (VInt 0)
    {| ParamType := ParamTypeInt; Name := name; Default := "";
       Usage := usage; Required := true |}.

Definition Bool (name : string) (value : bool) (usage : string)
    : State → outcome (loc * State) :=
  declare (VBool false)
    {| ParamType := ParamTypeBool; Name := name;
       Default := (if value then "true" else "");
       Usage := usage; Required := false |}.

Definition RequiredBool (name usage : string) : State → outcome (loc * State) :=
  declare (VBool false)
    {| ParamType := ParamTypeBool; Name := name; Default := "";
       Usage := usage; Required := true |}.

Definition Duration (name : string) (value : Z) (usage : string)
    : State → outcome (loc * State) :=
  declare (VDuration 0)
    {| ParamType := ParamTypeDuration; Name := name;
       Default := Duration_String value; Usage := usage; Required := false |}.

Definition RequiredDuration (name usage : string) : State → outcome (loc * State) :=
  declare (VDuration 0)
    {| ParamType := ParamTypeDuration; Name := name; Default := "";
       Usage := usage; Required := true |}.

Definition Custom (paramType name : string) (value : value) (usage : string)
    (st : State) : outcome (loc * State) :=
  match customParamTypeTypes (tables st) !! paramType with
  | None => Panic ("lflag: ParamType not defined: " +:+ paramType)
  | Some zero =>
      declare zero
        {| ParamType := paramType; Name := name; Default := fmt_Sprint value;
           Usage := usage; Required := false |} st
  end.

Definition RequiredCustom (paramType name usage : string)
    (st : State) : outcome (loc * State) :=
  match customParamTypeTypes (tables st) !! paramType with
  | None => Panic ("lflag: ParamType not defined: " +:+ paramType)
  | Some zero =>
      declare zero
        {| ParamType := paramType; Name := name; Default := "";
           Usage := usage; Required := true |} st
  end.

(* JSON and RequiredJSON are handed the receiver by the caller. *)
Definition JSON (rcv : loc) (name : string) (value : value) (usage : string)
    (st : State) : outcome State :=
  match json_Marshal value with
  | Ok jValue =>
      let p := {| ParamType := ParamTypeJSON; Name := name; Default := jValue;
                  Usage := usage; Required := false |} in
      let! r := newParam p rcv st in
      if decide (fst r ≠ rcv) then Panic (differs_msg p) else Ok (snd r)
  | Err e => Panic e
  | Panic msg => Panic msg
  | Exit s => Exit s
  end.

Definition RequiredJSON (rcv : loc) (name usage : string)
    (st : State) : outcome State :=
  let! r := newParam
    {| ParamType := ParamTypeJSON; Name := name; Default := "";
       Usage := usage; Required := true |} rcv st in
  Ok (snd r).

Definition Do (fn : callback) (st : State) : State :=
  set_sched (Do_sched fn (spin st) (log st)) st.

(* close(queueCh) makes spin, if it is still in its loop, leave it; it
   then closes doneCh and callCh, and spinWg.Wait() returns. *)
Definition close_queueCh (s : spin_state) : spin_state := Stopped.

Definition Reset (st : State) : State :=
  let st := set_sched (close_queueCh (spin st), log st) st in
  {| m := ∅; heap := heap st; tables := tables st; spin := go_spin;
     log := log st |}.

Definition required_msg (p : Param) : string :=
  "parameter " +:+ strconv_Quote (Name p) +:+ " required but not set".

Definition parsing_msg (p : Param) (err : string) : string :=
  "error parsing parameter " +:+ Name p +:+ ": " +:+ err.

(* val, valOk := vals[p.Name]; if !valOk { ... } *)
Definition raw_value (vals : gmap string string) (p : Param) : outcome string :=
  match vals !! Name p with
  | Some val => Ok val
  | None => if Required p then Panic (required_msg p) else Ok (Default p)
  end.

(* paramTypeParsers[p.ParamType](val, m[p.Name].ptr) and its error check *)
Definition convert (t : TypeTables) (mm : gmap string param) (p : Param)
    (val : string) (h : gmap loc value) : outcome (gmap loc value) :=
  match paramTypeParsers t !! ParamType p with
  | None => Panic nil_func_call
  | Some parse =>
      match mm !! Name p with
      | None => Panic type_assertion_failed
      | Some e =>
          match h !! ptr e with
          | None => Panic nil_func_call
          | Some cur =>
              match parse val cur with
              | Ok v => Ok (<[ptr e := v]> h)
              | Err err => Panic (parsing_msg p err)
              | Panic msg => Panic msg
              | Exit s => Exit s
              end
          end
      end
  end.

(* The body of the loop over pp in Parse *)
Definition fill (t : TypeTables) (mm : gmap string param)
    (vals : gmap string string) (p : Param) (h : gmap loc value)
    : outcome (gmap loc value) :=
  let! val := raw_value vals p in convert t mm p val h.

Fixpoint fill_all (t : TypeTables) (mm : gmap string param)
    (vals : gmap string string) (pp : list Param) (h : gmap loc value)
    : outcome (gmap loc value) :=
  match pp with
  | [] => Ok h
  | p :: pp' => let! h' := fill t mm vals p h in fill_all t mm vals pp' h'
  end.

(* Parse, with the order in which `range m` yields the entries given. *)
Definition ParseIn (order : list param) (s : Source) (st : State) : outcome State :=
  let pp := param_Param <$> order in
  match s pp with
  | Ok vals =>
      let! h := fill_all (tables st) (m st) vals pp (heap st) in
      let r := drain_all (spin st) (log st) in
      Ok {| m := ∅; heap := h; tables := tables st; spin := fst r; log := snd r |}
  | Err e => Panic e
  | Panic msg => Panic msg
  | Exit out => Exit out
  end.

(* One order `range m` may take *)
Definition range_m (st : State) : list param := (map_to_list (m st)).*2.

Definition Parse (s : Source) (st : State) : outcome State :=
  ParseIn (range_m st) s st.

Definition Configure (w : World) (st : State) : outcome State :=
  let s := Sources [sourceEnv w; sourceCLI w] in
  let s := NewSourceJSON w (tables st) s in
  Parse s st.

(* The state the package variables start in, and init() *)
Definition start : State :=
  {| m := ∅; heap := ∅; tables := builtinTables; spin := go_spin; log := [] |}.

Definition init : outcome State :=
  let! r := String "log-level" "info"
    "Log level to run with. Available levels are: debug, info, warn, error, fatal"
    start in
  Ok (Do (Emit "llog.SetLevelFromString" Return) (snd r)).

End Package.

(* ------------------------------------------------------------------ *)
(* A library to run examples with                                      *)
(* ------------------------------------------------------------------ *)

(* The library calls on the plain ASCII inputs the examples below use:
   letters change case bytewise, %q only adds the quotes, and the decoders
   accept what the examples feed them.  No statement below is about this
   instance; the general results hold for every GoLib. *)
Module Example.

Definition upper_byte (c : ascii) : ascii :=
  let n := nat_of_ascii c in
  if (97 <=? n)%nat && (n <=? 122)%nat then ascii_of_nat (n - 32) else c.

Definition lower_byte (c : ascii) : ascii :=
  let n := nat_of_ascii c in
  if (65 <=? n)%nat && (n <=? 90)%nat then ascii_of_nat (n + 32) else c.

Fixpoint map_bytes (f : ascii → ascii) (s : string) : string :=
  match s with
  | EmptyString => EmptyString
  | String.String c s' => String.String (f c) (map_bytes f s')
  end.

Definition QUOTE : string := String.String (ascii_of_nat 34) EmptyString.

Fixpoint digits (s : string) (acc : Z) : option Z :=
  match s with
  | EmptyString => Some acc
  | String.String c s' =>
      let n := nat_of_ascii c in
      if (48 <=? n)%nat && (n <=? 57)%nat
      then digits s' (10 * acc + Z.of_nat (n - 48))%Z
      else None
  end.

Definition atoi (s : string) : outcome Z :=
  match s with
  | EmptyString => Err "invalid syntax"
  | _ => match digits s 0 with Some z => Ok z | None => Err "invalid syntax" end
  end.

#[export] Instance lib : GoLib := {|
  strings_ToUpper := map_bytes upper_byte;
  strings_ToLower := map_bytes lower_byte;
  strconv_Quote := λ s, QUOTE +:+ s +:+ QUOTE;
  fmt_Printf := λ s, s;
  strconv_Atoi := atoi;
  strconv_Itoa := λ z, pretty z;
  Duration_String := λ z, pretty z;
  fmt_Sprint := λ v, match v with VString s | VAny s => s | _ => "" end;
  json_Marshal := λ v, match v with VAny s => Ok s | _ => Err "unsupported" end;
  strconv_ParseInt64 := atoi;
  time_ParseDuration := atoi;
  json_Unmarshal := λ s _, Ok (VAny s);
  json_UnmarshalString := λ s, Ok s;
  json_Decode := λ doc,
    if decide (doc = "null-doc")
    then Ok {[ "a" := "null"; "b" := "1"; "c" := "2" ]}
    else Err "unexpected end of JSON input"
|}.

Definition world : World :=
  {| os_Args := ["prog"]; os_Environ := []; os_Open := λ _, Err "no such file";
     HelpPrefix := ""; BuildCommit := ""; BuildDate := ""; BuildNumber := "";
     BuildGoVersion := "" |}.

End Example.

(* ------------------------------------------------------------------ *)
(* Vocabulary of the statements                                        *)
(* ------------------------------------------------------------------ *)

(* What the loop of Sources.Parse holds after the sources that answered ms *)
Definition merge_all (acc : gmap string string) (ms : list (gmap string string))
    : gmap string string :=
  foldl (λ a sm, sm ∪ a) acc ms.

(* The sources ss answer pp with the maps ms, one each. *)
Definition answers (pp : list Param) (ss : list Source)
    (ms : list (gmap string string)) : Prop :=
  Forall2 (λ (s : Source) sm, s pp = Ok sm) ss ms.

(* What a callback emits itself, and the functions it hands to Do itself *)
Fixpoint emitted (fn : callback) : list string :=
  match fn with
  | Return => []
  | Emit e k => e :: emitted k
  | CallDo _ k => emitted k
  end.

Fixpoint registered (fn : callback) : list callback :=
  match fn with
  | Return => []
  | Emit _ k => registered k
  | CallDo g k => g :: registered k
  end.

(* Every entry of m is stored under the name of its Param. *)
Definition registry_wf (st : State) : Prop :=
  map_Forall (λ name e, Name (param_Param e) = name) (m st).

(* Every declared parameter has a slot of its own in the heap. *)
Definition slots_wf (st : State) : Prop :=
  (∀ name e, m st !! name = Some e → is_Some (heap st !! ptr e)) ∧
  (∀ n1 n2 e1 e2, m st !! n1 = Some e1 → m st !! n2 = Some e2 →
                  ptr e1 = ptr e2 → n1 = n2).

(* The entries of order are the ones mm holds under their names. *)
Definition stored (mm : gmap string param) (order : list param) : Prop :=
  Forall (λ e, mm !! Name (param_Param e) = Some e) order.

(* The raw value Parse settles on when the parameter does not fault *)
Definition chosen (vals : gmap string string) (p : Param) : string :=
  default (Default p) (vals !! Name p).

(* The slot of e goes from cur to v by the parser of its type on val. *)
Definition converts (t : TypeTables) (e : param) (val : string)
    (h h' : gmap loc value) : Prop :=
  ∃ parse cur v,
    paramTypeParsers t !! ParamType (param_Param e) = Some parse ∧
    h !! ptr e = Some cur ∧ parse val cur = Ok v ∧ h' = <[ptr e := v]> h.

(* The token has no "=" in it. *)
Definition no_EQ (name : string) : Prop := snd (strings.SplitN2 EQ name) = None.

Definition not_help_or_version (name : string) : Prop :=
  ¬ (name = "-h" ∨ name = "--help") ∧ ¬ (name = "-V" ∨ name = "--version").

(* The document without the keys whose value is null *)
Definition drop_nulls (jm : gmap string string) : gmap string string :=
  filter (λ kv, kv.2 ≠ "null") jm.

(* Everything a callback emits once it and all it hands to Do have run *)
Fixpoint all_emitted (fn : callback) : list string :=
  match fn with
  | Return => []
  | Emit e k => e :: all_emitted k
  | CallDo g k => all_emitted g ++ all_emitted k
  end.

(* What the functions still queued will emit *)
Definition pending (s : spin_state) : list string :=
  match s with
  | Spinning dos => concat (all_emitted <$> dos)
  | Stopped => []
  end.

(* spin is in its loop only with something queued. *)
Definition sched_wf (s : spin_state) : Prop := s ≠ Spinning [].

(* A callback that does not call Do itself *)
Definition plain (fn : callback) : Prop := registered fn = [].

(* Do(fns[0]); Do(fns[1]); ... *)
Definition Do_each (fns : list callback) (st : State) : State :=
  foldl (λ st fn, Do fn st) st fns.

(* The entry has the form KEY=VALUE. *)
Definition has_EQ (e : string) : Prop := is_Some (snd (strings.SplitN2 EQ e)).

(* The value of the last entry of ee whose key is key *)
Fixpoint env_value (key : string) (ee : list string) : option string :=
  match ee with
  | [] => None
  | e :: ee' =>
      match env_value key ee' with
      | Some v => Some v
      | None =>
          if decide (fst (strings.SplitN2 EQ e) = key)
          then snd (strings.SplitN2 EQ e) else None
      end
  end.

(* Every key of the result is the name of a declared parameter. *)
Definition keys_declared (pp : list Param) (found : gmap string string) : Prop :=
  ∀ k, is_Some (found !! k) → ∃ p, p ∈ pp ∧ Name p = k.

(* The call returned or ended the process; it did not fail. *)
Definition returns_or_exits {A} (x : outcome A) : Prop :=
  match x with Ok _ | Exit _ => True | Err _ | Panic _ => False end.

(* In the order of the names, as sort.Slice leaves them *)
Definition by_name (a b : Param) : Prop := strings.lt (Name b) (Name a) = false.

(* The source Configure hands to Parse *)
Definition Configure_source `{GoLib} (w : World) (t : TypeTables) : Source :=
  NewSourceJSON w t (Sources [sourceEnv w; sourceCLI w]).


(* A source together with the slice it is handed: what the caller's pp
   holds when the call ends, and the outcome of the call *)
Definition SliceSource := list Param → list Param * outcome (gmap string string).

(* parseEnv only ranges over pp. *)
Definition sourceEnv_slice `{GoLib} (w : World) : SliceSource :=
  λ pp, (pp, sourceEnv w pp).

Definition sourceCLI_slice `{GoLib} (w : World) : SliceSource := λ pp,
  match os_Args w with
  | [] => (pp, Panic "slice bounds out of range")
  | _ :: args => parseCLI w args pp
  end.

(* sourceJSON.Parse starts with pp = append(pp, Param{...}).  Where the
   caller's slice has room the longer slice shares its array (shared), so
   that what the inner source does to its first len(pp) elements is done to
   the caller's; otherwise the longer slice is a copy.  Nothing else in
   sourceJSON.Parse writes to pp. *)
Definition sourceJSON_slice `{GoLib} (w : World) (t : TypeTables)
    (inner : SliceSource) (test : option string) (shared : bool) : SliceSource :=
  λ pp,
    let r := inner (pp ++ [configFileParam]) in
    (if shared then take (length pp) (fst r) else pp,
     sourceJSON w t (λ pp', snd (inner pp')) test pp).

(* Sources.Parse hands the same slice to each source in turn. *)
Fixpoint Sources_slice_loop (ss : list SliceSource) (pp : list Param)
    (vals : gmap string string) : list Param * outcome (gmap string string) :=
  match ss with
  | [] => (pp, Ok vals)
  | s :: ss' =>
      let r := s pp in
      match snd r with
      | Ok sm => Sources_slice_loop ss' (fst r) (range_assign sm vals)
      | Err e => (fst r, Err e)
      | Panic msg => (fst r, Panic msg)
      | Exit out => (fst r, Exit out)
      end
  end.

Definition Sources_slice (ss : list SliceSource) : SliceSource :=
  λ pp, Sources_slice_loop ss pp ∅.

(* Whenever a call of the source comes back to its caller, the slice holds
   what it held before; the only other way a call ends is the end of the
   process. *)
Definition leaves_slice (S : SliceSource) : Prop :=
  ∀ pp, fst (S pp) = pp ∨ ∃ text, snd (S pp) = Exit text.

(* ------------------------------------------------------------------ *)
(* Inputs of the examples                                              *)
(* ------------------------------------------------------------------ *)

(* TestDo: the callbacks emit the value the test asserts the counter has
   when they run. *)
Definition TestDo_first : callback :=
  Emit "0" (CallDo (Emit "2" Return) Return).
Definition TestDo_second : callback :=
  Emit "1" (CallDo (Emit "3" (CallDo (Emit "4" Return) Return)) Return).
Definition TestDo_third : callback :=
  Emit "5" (CallDo (Emit "6" Return) Return).

(* A callback that calls Do with more of its own work still to come *)
Definition A_with_nested_B : callback :=
  Emit "A begins" (CallDo (Emit "B" Return) (Emit "A ends" Return)).

(* testParams of the package's tests *)
Definition testParams : list Param :=
  [ {| ParamType := ParamTypeString; Name := "foo"; Default := ""; Usage := "";
       Required := false |};
    {| ParamType := ParamTypeString; Name := "bar"; Default := ""; Usage := "wut";
       Required := false |};
    {| ParamType := ParamTypeString; Name := "baz"; Default := "wat"; Usage := "wut";
       Required := false |};
    {| ParamType := ParamTypeBool; Name := "flag1"; Default := ""; Usage := "";
       Required := false |};
    {| ParamType := ParamTypeBool; Name := "flag2"; Default := ""; Usage := "";
       Required := false |};
    {| ParamType := ParamTypeString; Name := "foo-bar"; Default := ""; Usage := "";
       Required := false |} ].


Definition param_a : Param :=
  {| ParamType := ParamTypeString; Name := "a"; Default := ""; Usage := "";
     Required := false |}.
Definition param_b : Param :=
  {| ParamType := ParamTypeString; Name := "b"; Default := ""; Usage := "";
     Required := false |}.

Definition db_addr : Param :=
  {| ParamType := ParamTypeString; Name := "db-addr"; Default := ":666";
     Usage := "Address the database is listening on"; Required := false |}.
Definition db_addr_other_default : Param :=
  {| ParamType := ParamTypeString; Name := "db-addr"; Default := ":667";
     Usage := "Address the database is listening on"; Required := false |}.

(* A string parameter with default "x" *)
Definition str_param : Param :=
  {| ParamType := ParamTypeString; Name := "str"; Default := "x";
     Usage := "Some string"; Required := false |}.

(* A required string parameter, and an environment that sets it to "" *)
Definition foo_required : Param :=
  {| ParamType := ParamTypeString; Name := "foo"; Default := "";
     Usage := "Some string"; Required := true |}.

Definition world_FOO_empty : World :=
  {| os_Args := ["prog"]; os_Environ := ["FOO="; "HOME=whatever"];
     os_Open := λ _, Err "no such file";
     HelpPrefix := ""; BuildCommit := ""; BuildDate := ""; BuildNumber := "";
     BuildGoVersion := "" |}.

(* A document {a: null, b: 1, c: 2} is read for these *)
Definition abc_params : list Param :=
  [ {| ParamType := ParamTypeString; Name := "a"; Default := ""; Usage := "";
       Required := false |};
    {| ParamType := ParamTypeInt; Name := "b"; Default := ""; Usage := "";
       Required := false |};
    {| ParamType := ParamTypeInt; Name := "c"; Default := ""; Usage := "";
       Required := false |} ].

(* The package right after String("str", "x", ...) and after
   RequiredString("foo", ...), with the example library *)
Definition declared_str : State :=
  set_m {[ "str" := {| param_Param := str_param; ptr := 0 |} ]}
    (set_heap {[ 0 := VString "" ]} (@start Example.lib)).

Definition declared_foo : State :=
  set_m {[ "foo" := {| param_Param := foo_required; ptr := 0 |} ]}
    (set_heap {[ 0 := VString "" ]} (@start Example.lib)).

(* More inputs: the first of testParams, an int64 and an int parameter,
   a process started with a flag and an environment, and packages with
   one parameter declared *)
Definition foo_param : Param :=
  {| ParamType := ParamTypeString; Name := "foo"; Default := ""; Usage := "";
     Required := false |}.

Definition int64_b : Param :=
  {| ParamType := ParamTypeInt64; Name := "b"; Default := ""; Usage := "";
     Required := false |}.

Definition int_param : Param :=
  {| ParamType := ParamTypeInt; Name := "int"; Default := "5";
     Usage := "Some int"; Required := false |}.

Definition world_cli_env : World :=
  {| os_Args := ["prog"; "--foo"; "cli"];
     os_Environ := ["FOO=env"; "BAR=envbar"];
     os_Open := λ _, Err "no such file";
     HelpPrefix := ""; BuildCommit := ""; BuildDate := ""; BuildNumber := "";
     BuildGoVersion := "" |}.

Definition world_verbose : World :=
  {| os_Args := ["prog"; "--verbose"]; os_Environ := [];
     os_Open := λ _, Err "no such file";
     HelpPrefix := ""; BuildCommit := ""; BuildDate := ""; BuildNumber := "";
     BuildGoVersion := "" |}.

Definition declared_int : State :=
  set_m {[ "int" := {| param_Param := int_param; ptr := 0 |} ]}
    (set_heap {[ 0 := VInt 0 ]} (@start Example.lib)).

Definition declared_str_with_old : State :=
  set_heap {[ 0 := VString ""; 5 := VInt 9 ]} declared_str.

Definition json_required : Param :=
  {| ParamType := ParamTypeJSON; Name := "json"; Default := "";
     Usage := "Some json"; Required := true |}.

Definition declared_json : State :=
  set_m {[ "json" := {| param_Param := json_required; ptr := 3 |} ]}
    (set_heap {[ 3 := VAny ""; 4 := VAny "" ]} (@start Example.lib)).

(* ------------------------------------------------------------------ *)
(* Facts about the maps the sources build                              *)
(* ------------------------------------------------------------------ *)

Lemma range_assign_union (src dst : gmap string string) :
  range_assign src dst = src ∪ dst.
Proof.
  unfold range_assign.
  apply (map_fold_weak_ind (λ r (mm : gmap string string), r = mm ∪ dst)).
  - by rewrite (left_id_L ∅ (∪)).
  - intros k v mm r _ ->. by rewrite insert_union_l.
Qed.

Lemma range_assign_lookup (src dst : gmap string string) (k : string) :
  range_assign src dst !! k =
  match src !! k with Some v => Some v | None => dst !! k end.
Proof.
  rewrite range_assign_union, lookup_union.
  destruct (src !! k), (dst !! k); reflexivity.
Qed.

(* ------------------------------------------------------------------ *)
(* Type conversion                                                     *)
(* ------------------------------------------------------------------ *)

Section ConversionFacts.
Context `{GoLib}.

Lemma parseParamTypeBool_true (val : string) (b : bool) :
  parseParamTypeBool val (VBool b) = Ok (VBool true) ↔ val ≠ "" ∧ val ≠ "false".
Proof.
  unfold parseParamTypeBool. split.
  - intros [= Hb]. apply andb_true_iff in Hb as [H1 H2].
    split; eapply bool_decide_eq_true; eassumption.
  - intros [H1 H2]. by rewrite !bool_decide_eq_true_2.
Qed.

(** C2 (the code departs from the claim).  The built-in boolean conversion
    writes true for every raw value other than the empty string and "false";
    so "true" converts to true, "" and "false" convert to false, but
    "anything-else" converts to true, not to false. *)
Theorem parseParamTypeBool_anything_else :
  (∀ val b, parseParamTypeBool val (VBool b)
            = Ok (VBool (bool_decide (val ≠ "" ∧ val ≠ "false")))) ∧
  parseParamTypeBool "true" (VBool false) = Ok (VBool true) ∧
  parseParamTypeBool "" (VBool true) = Ok (VBool false) ∧
  parseParamTypeBool "false" (VBool true) = Ok (VBool false) ∧
  parseParamTypeBool "anything-else" (VBool false) = Ok (VBool true).
Proof.
  split; [|by repeat split].
  intros val b. unfold parseParamTypeBool. by rewrite bool_decide_and.
Qed.

End ConversionFacts.

(* ------------------------------------------------------------------ *)
(* Sources: merging in order                                           *)
(* ------------------------------------------------------------------ *)

Section SourcesFacts.
Implicit Types (ss : list Source) (ms : list (gmap string string)).
Implicit Types (vals acc sm : gmap string string) (pp : list Param).

Lemma Sources_loop_app pp ss ss' ms acc :
  answers pp ss ms →
  Sources_loop (ss ++ ss') pp acc = Sources_loop ss' pp (merge_all acc ms).
Proof.
  intros Hans. revert acc.
  induction Hans as [|s sm ss ms Hs _ IH]; intros acc; simpl; [done|].
  rewrite Hs. simpl. rewrite range_assign_union. apply IH.
Qed.

Lemma merge_all_absent acc ms k :
  (∀ sm, sm ∈ ms → sm !! k = None) → merge_all acc ms !! k = acc !! k.
Proof.
  revert acc. induction ms as [|sm ms IH]; intros acc Hnone; simpl; [done|].
  rewrite IH by (intros sm' Hin; apply Hnone; by right).
  rewrite lookup_union_r; [done|]. apply Hnone. by left.
Qed.

Lemma merge_all_last acc ms i sm k v :
  ms !! i = Some sm → sm !! k = Some v →
  (∀ j sm', i < j → ms !! j = Some sm' → sm' !! k = None) →
  merge_all acc ms !! k = Some v.
Proof.
  revert acc i. induction ms as [|sm0 ms IH]; intros acc i Hi Hk Hlater; [done|].
  destruct i as [|i]; simpl in *.
  - injection Hi as ->.
    rewrite merge_all_absent.
    + by apply lookup_union_Some_l.
    + intros sm' [j Hj]%list_elem_of_lookup. apply (Hlater (S j)); [lia|done].
  - apply (IH _ i); [done|done|].
    intros j sm' Hlt Hj. apply (Hlater (S j)); [lia|done].
Qed.

(** C5.  Sources.Parse asks each source in order.  When the sources before
    some point all answer, and nothing follows them, the result is their
    maps merged: a key holds the value of the last source that has it, and
    a key no source has is absent.  When the next source fails instead, the
    result is that error, and no map. *)
Theorem Sources_Parse_merges pp ss ms :
  answers pp ss ms →
  (∃ vals, Sources ss pp = Ok vals ∧
     (∀ i sm k v, ms !! i = Some sm → sm !! k = Some v →
        (∀ j sm', i < j → ms !! j = Some sm' → sm' !! k = None) →
        vals !! k = Some v) ∧
     (∀ k, (∀ sm, sm ∈ ms → sm !! k = None) → vals !! k = None)) ∧
  (∀ (s : Source) rest e, s pp = Err e → Sources (ss ++ s :: rest) pp = Err e).
Proof.
  intros Hans. split.
  - exists (merge_all ∅ ms). split; [|split].
    + unfold Sources. rewrite <- (app_nil_r ss).
      by rewrite (Sources_loop_app _ _ _ ms).
    + intros i sm k v. apply merge_all_last.
    + intros k Hnone. by rewrite merge_all_absent.
  - intros s rest e He. unfold Sources.
    rewrite (Sources_loop_app _ _ _ ms) by done. simpl. by rewrite He.
Qed.

(* providers [{a:1}, {a:2, b:3}] merge to {a:2, b:3}; a failing third
   source turns the whole result into its error *)
Lemma Sources_Parse_merges_witness :
  (∃ vals,
     Sources [SourceStub {[ "a" := "1" ]};
              SourceStub {[ "a" := "2"; "b" := "3" ]}] [] = Ok vals ∧
     vals !! "a" = Some "2" ∧ vals !! "b" = Some "3" ∧ vals !! "c" = None) ∧
  Sources [SourceStub {[ "a" := "1" ]};
           SourceStub {[ "a" := "2"; "b" := "3" ]};
           (λ _, Err "boom"); SourceStub ∅] []
    = Err "boom".
Proof.
  pose proof (Sources_Parse_merges []
    [SourceStub {[ "a" := "1" ]}; SourceStub {[ "a" := "2"; "b" := "3" ]}]
    [ {[ "a" := "1" ]}; {[ "a" := "2"; "b" := "3" ]} ]) as Hthm.
  destruct Hthm as [(vals & Hvals & Hlast & Hnone) Herr].
  - repeat constructor.
  - split.
    + exists vals. split; [exact Hvals|]. split; [|split].
      * apply (Hlast 1 {[ "a" := "2"; "b" := "3" ]}); [done|done|].
        intros [|[|j]] sm' Hlt Hj; [lia|lia|done].
      * apply (Hlast 1 {[ "a" := "2"; "b" := "3" ]}); [done|done|].
        intros [|[|j]] sm' Hlt Hj; [lia|lia|done].
      * apply Hnone. intros sm' Hin.
        apply list_elem_of_In in Hin. simpl in Hin.
        destruct Hin as [<-|[<-|[]]]; done.
    + exact (Herr (λ _, Err "boom") [SourceStub ∅] "boom" eq_refl).
Defined.

End SourcesFacts.

(* ------------------------------------------------------------------ *)
(* The scheduler                                                       *)
(* ------------------------------------------------------------------ *)

Section SchedulerFacts.
Implicit Types (fn g k : callback) (s : spin_state) (dos : list callback).
Implicit Types (lg : list string).

Lemma weight_pos fn : 1 ≤ weight fn.
Proof. destruct fn; simpl; lia. Qed.

Lemma queue_weight_spin_loop dos :
  queue_weight (spin_loop dos) = list_sum (weight <$> dos).
Proof. by destruct dos. Qed.

Lemma queue_weight_send g dos :
  queue_weight (queue_send g dos) = list_sum (weight <$> dos) + weight g.
Proof.
  unfold queue_send. rewrite queue_weight_spin_loop, fmap_app, list_sum_app.
  simpl. lia.
Qed.

(* Once spin has stopped, nothing a callback does starts it again. *)
Lemma run_Stopped fn lg : fst (run fn Stopped lg) = Stopped.
Proof.
  revert lg. induction fn as [|e k IH|g IHg k IHk]; intros lg; simpl; [done|apply IH|].
  rewrite IHg. apply IHk.
Qed.

(* Running a callback queues less than the callback weighs. *)
Lemma run_weight fn s lg :
  queue_weight (fst (run fn s lg)) + 1 ≤ queue_weight s + weight fn.
Proof.
  revert s lg. induction fn as [|e k IH|g IHg k IHk]; intros s lg; simpl.
  - lia.
  - specialize (IH s (lg ++ [e])). lia.
  - destruct s as [dos|].
    + specialize (IHk (queue_send g dos) lg).
      rewrite queue_weight_send in IHk. simpl. lia.
    + specialize (IHg Stopped lg).
      specialize (IHk (fst (run g Stopped lg)) (snd (run g Stopped lg))).
      simpl in *. lia.
Qed.

(* The range loop of Parse ends: fuel for the weight of the queue is
   enough, whatever the callbacks queue on their way. *)
Lemma drain_enough_fuel fuel s lg :
  queue_weight s ≤ fuel → is_Some (drain fuel s lg).
Proof.
  revert s lg. induction fuel as [|fuel IH]; intros s lg Hw.
  - destruct s as [[|fn dos]|]; simpl; [by eexists|exfalso|by eexists].
    simpl in Hw. pose proof (weight_pos fn). lia.
  - destruct s as [[|fn dos]|]; simpl; [by eexists| |by eexists].
    apply IH. pose proof (run_weight fn (spin_loop dos) lg) as Hrun.
    rewrite queue_weight_spin_loop in Hrun.
    change (queue_weight (Spinning (fn :: dos)))
      with (weight fn + list_sum (weight <$> dos)) in Hw. lia.
Qed.

Lemma drain_all_Some s lg : drain (queue_weight s) s lg = Some (drain_all s lg).
Proof.
  unfold drain_all.
  destruct (drain_enough_fuel (queue_weight s) s lg) as [r ->]; done.
Qed.

Lemma drain_more_fuel fuel fuel' s lg r :
  drain fuel s lg = Some r → fuel ≤ fuel' → drain fuel' s lg = Some r.
Proof.
  revert fuel' s lg. induction fuel as [|fuel IH]; intros fuel' s lg Hd Hle.
  - destruct s as [[|fn dos]|]; simpl in *; destruct fuel'; done.
  - destruct fuel' as [|fuel']; [lia|].
    destruct s as [[|fn dos]|]; simpl in *; [done| |done].
    apply IH; [done|lia].
Qed.

(* One turn of the range loop *)
Lemma drain_all_cons fn dos lg :
  drain_all (Spinning (fn :: dos)) lg =
  drain_all (fst (run fn (spin_loop dos) lg)) (snd (run fn (spin_loop dos) lg)).
Proof.
  pose proof (drain_all_Some (Spinning (fn :: dos)) lg) as Hd.
  pose proof (weight_pos fn) as Hpos.
  change (queue_weight (Spinning (fn :: dos)))
    with (weight fn + list_sum (weight <$> dos)) in Hd.
  destruct (weight fn + list_sum (weight <$> dos)) as [|fuel] eqn:Hf; [lia|].
  simpl in Hd.
  pose proof (drain_all_Some (fst (run fn (spin_loop dos) lg))
                (snd (run fn (spin_loop dos) lg))) as Hd'.
  apply (drain_more_fuel _ fuel) in Hd'.
  - rewrite Hd' in Hd. by injection Hd.
  - pose proof (run_weight fn (spin_loop dos) lg) as Hrun.
    rewrite queue_weight_spin_loop in Hrun. lia.
Qed.

Lemma drain_all_Stopped lg : drain_all Stopped lg = (Stopped, lg).
Proof. reflexivity. Qed.

(* While spin has more to hand over, it takes what a running callback
   sends: the functions are appended in the order of the calls to Do, and
   nothing of them runs yet. *)
Lemma run_Spinning fn dos lg :
  dos ≠ [] →
  run fn (Spinning dos) lg = (Spinning (dos ++ registered fn), lg ++ emitted fn).
Proof.
  revert dos lg. induction fn as [|e k IH|g _ k IHk]; intros dos lg Hdos; simpl.
  - by rewrite !app_nil_r.
  - rewrite IH by done. by rewrite <- app_assoc.
  - assert (dos ++ [g] ≠ []) as Hne by (by destruct dos).
    unfold queue_send, spin_loop.
    destruct (dos ++ [g]) as [|g0 dos'] eqn:Hq; [done|].
    rewrite IHk by done. by rewrite <- Hq, <- app_assoc.
Qed.

(* The callback that is handed over last runs with spin already out of
   its loop. *)
Lemma drain_all_last fn lg : drain_all (Spinning [fn]) lg = run fn Stopped lg.
Proof.
  rewrite drain_all_cons. simpl.
  pose proof (run_Stopped fn lg) as Hs.
  destruct (run fn Stopped lg) as [s lg']. simpl in *. by subst.
Qed.

End SchedulerFacts.

(* ------------------------------------------------------------------ *)
(* Do, Reset and the drain of Parse                                    *)
(* ------------------------------------------------------------------ *)

Section DoFacts.
Context `{GoLib}.
Implicit Types (fn g k : callback) (st : State).

Lemma range_m_empty st : m st = ∅ → range_m st = [].
Proof. unfold range_m. intros ->. by rewrite map_to_list_empty. Qed.

(* With nothing declared and a source that answers, Parse is the drain. *)
Lemma Parse_nothing_declared st vals :
  m st = ∅ →
  Parse (SourceStub vals) st =
  Ok {| m := ∅; heap := heap st; tables := tables st;
        spin := fst (drain_all (spin st) (log st));
        log := snd (drain_all (spin st) (log st)) |}.
Proof. intros Hm. unfold Parse. by rewrite (range_m_empty st Hm). Qed.

Example TestDo :
  ∃ st, Parse (SourceStub ∅) (Do TestDo_second (Do TestDo_first (Reset start)))
        = Ok st ∧
        log (Do TestDo_third st) = ["0"; "1"; "2"; "3"; "4"; "5"; "6"].
Proof. rewrite Parse_nothing_declared by done. eexists. split; reflexivity. Qed.

(** C1 (the code departs from the claim).  When the callback A that is
    handed to Parse last calls Do(B), spin has already left its loop and
    closed doneCh, so B is not queued: it runs on the spot, inside A,
    before the rest of A.  With A alone in the queue, what A does after
    its Do comes after all of B; with another callback C queued behind A,
    the same A has its B queued and run after C. *)
Theorem Do_inside_last_callback_runs_inline :
  (∀ g k lg,
     drain_all (Spinning [noop; CallDo g k]) lg
     = run k Stopped (snd (run g Stopped lg))) ∧
  (∃ st, Parse (SourceStub ∅) (Do A_with_nested_B (Reset start)) = Ok st ∧
         log st = ["A begins"; "B"; "A ends"] ∧ spin st = Stopped) ∧
  (∃ st, Parse (SourceStub ∅)
           (Do (Emit "C" Return) (Do A_with_nested_B (Reset start))) = Ok st ∧
         log st = ["A begins"; "A ends"; "C"; "B"] ∧ spin st = Stopped).
Proof.
  split; [|split].
  - intros g k lg. rewrite drain_all_cons. simpl.
    rewrite drain_all_last. simpl. by rewrite run_Stopped.
  - rewrite Parse_nothing_declared by done. eexists. by repeat split.
  - rewrite Parse_nothing_declared by done. eexists. by repeat split.
Qed.

(** C8.  Reset empties the registry and starts spin afresh with only its
    seed queued.  So where a Do on the closed scheduler ran its function at
    once, a Do after Reset only queues it: nothing is emitted, and the
    function waits behind the seed until the next Parse runs it. *)
Theorem Reset_returns_to_accepting st fn :
  spin st = Stopped →
  log (Do fn st) = snd (run fn Stopped (log st)) ∧
  m (Reset st) = ∅ ∧
  spin (Reset st) = Spinning [noop] ∧
  log (Do fn (Reset st)) = log st ∧
  spin (Do fn (Reset st)) = Spinning [noop; fn] ∧
  ∃ st', Parse (SourceStub ∅) (Do fn (Reset st)) = Ok st' ∧
         m st' = ∅ ∧ spin st' = Stopped ∧
         log st' = snd (run fn Stopped (log st)).
Proof.
  intros Hclosed. split; [|split; [|split; [|split; [|split]]]]; try done.
  - unfold Do, Do_sched. by rewrite Hclosed.
  - rewrite Parse_nothing_declared by done. eexists. split; [done|].
    change (spin (Do fn (Reset st))) with (Spinning [noop; fn]).
    change (log (Do fn (Reset st))) with (log st).
    rewrite drain_all_cons.
    change (run noop (spin_loop [fn]) (log st)) with (Spinning [fn], log st).
    cbn [fst snd m spin log]. rewrite drain_all_last.
    split; [done|]. split; [apply run_Stopped|done].
Qed.

End DoFacts.

(* ------------------------------------------------------------------ *)
(* newParam                                                            *)
(* ------------------------------------------------------------------ *)

Section RegistryFacts.
Context `{GoLib}.
Implicit Types (p q : Param) (st : State) (e : param).

Lemma set_m_same st : set_m (m st) st = st.
Proof. by destruct st. Qed.

Lemma newParam_fresh p ptr0 st :
  m st !! Name p = None →
  newParam p ptr0 st
  = Ok (ptr0, set_m (<[Name p := {| param_Param := p; ptr := ptr0 |}]> (m st)) st).
Proof. unfold newParam. by intros ->. Qed.

Lemma newParam_same p ptr0 st e :
  m st !! Name p = Some e → param_Param e = p →
  newParam p ptr0 st = Ok (ptr e, st).
Proof.
  unfold newParam. intros Hm Hp. rewrite Hm.
  destruct (decide (param_Param e ≠ p)) as [Hne|_]; [done|].
  by rewrite insert_id, set_m_same.
Qed.

Lemma newParam_differs p ptr0 st e :
  m st !! Name p = Some e → param_Param e ≠ p →
  newParam p ptr0 st = Panic (differs_msg p).
Proof.
  unfold newParam. intros Hm Hp. rewrite Hm.
  by destruct (decide (param_Param e ≠ p)).
Qed.

Lemma start_wf : registry_wf start.
Proof. apply map_Forall_empty. Qed.

Lemma start_slots_wf : slots_wf start.
Proof. split; intros ?; by setoid_rewrite lookup_empty. Qed.

Lemma Reset_slots_wf st : slots_wf (Reset st).
Proof. split; intros ?; by setoid_rewrite lookup_empty. Qed.

Lemma Reset_wf st : registry_wf (Reset st).
Proof. apply map_Forall_empty. Qed.

Lemma newParam_wf p ptr0 st r :
  registry_wf st → newParam p ptr0 st = Ok r → registry_wf (snd r).
Proof.
  unfold registry_wf, newParam. intros Hwf.
  destruct (m st !! Name p) as [e|] eqn:Hm.
  - destruct (decide (param_Param e ≠ p)); [done|].
    intros [= <-]. simpl. by rewrite insert_id.
  - intros [= <-]. simpl. by apply map_Forall_insert_2.
Qed.

(* String, Int and the like declare with a pointer fresh from new, so the
   parameters they declare have slots of their own. *)
Lemma declare_wf zero p st r :
  registry_wf st → slots_wf st → declare zero p st = Ok r →
  registry_wf (snd r) ∧ slots_wf (snd r).
Proof.
  intros Hwf [Halloc Hdistinct] Hdecl. split.
  { unfold declare in Hdecl. by apply newParam_wf in Hdecl. }
  unfold declare, new, newParam in Hdecl. simpl in Hdecl.
  pose proof (is_fresh (dom (heap st))) as Hfresh.
  destruct (m st !! Name p) as [e|] eqn:Hm.
  - destruct (decide (param_Param e ≠ p)); [done|]. injection Hdecl as <-.
    simpl. rewrite insert_id by done. split; simpl.
    + intros name e' He'. destruct (Halloc name e' He') as [v Hv].
      exists v. rewrite lookup_insert_ne; [done|].
      intros Heq. apply Hfresh. rewrite Heq. by apply elem_of_dom.
    + exact Hdistinct.
  - injection Hdecl as <-. split; simpl.
    + intros name e'. rewrite lookup_insert.
      destruct (decide (Name p = name)) as [_|_].
      * intros [= <-]. simpl. rewrite lookup_insert_eq. by eexists.
      * intros He'. destruct (Halloc name e' He') as [v Hv].
        exists v. rewrite lookup_insert_ne; [done|].
        intros Heq. apply Hfresh. rewrite Heq. by apply elem_of_dom.
    + assert (∀ name e', m st !! name = Some e' →
                ptr e' ≠ fresh (dom (heap st))) as Hother.
      { intros name e' He' Heq. apply Hfresh. rewrite <- Heq.
        apply elem_of_dom. by apply (Halloc name). }
      intros n1 n2 e1 e2. rewrite !lookup_insert.
      destruct (decide (Name p = n1)) as [<-|_], (decide (Name p = n2)) as [<-|_];
        try done.
      * intros [= <-] He2 Heq. simpl in Heq. by destruct (Hother n2 e2 He2).
      * intros He1 [= <-] Heq. simpl in Heq. by destruct (Hother n1 e1 He1).
      * apply Hdistinct.
Qed.

Lemma range_m_NoDup st order :
  slots_wf st → order ≡ₚ range_m st → NoDup (ptr <$> order).
Proof.
  intros [_ Hdistinct] ->. unfold range_m.
  rewrite <- list_fmap_compose.
  apply NoDup_fmap_2_strong; [|apply NoDup_map_to_list].
  intros [n1 e1] [n2 e2] H1%elem_of_map_to_list H2%elem_of_map_to_list Heq.
  simpl in Heq. assert (n1 = n2) as <- by by apply (Hdistinct n1 n2 e1 e2).
  congruence.
Qed.

(* JSON is handed its receiver, so on top of newParam it refuses a second
   declaration that comes with another receiver, equal Param or not. *)
Lemma JSON_other_receiver rcv name value usage st jValue e :
  json_Marshal value = Ok jValue →
  m st !! name = Some e →
  param_Param e = {| ParamType := ParamTypeJSON; Name := name; Default := jValue;
                     Usage := usage; Required := false |} →
  ptr e ≠ rcv →
  JSON rcv name value usage st = Panic (differs_msg (param_Param e)).
Proof.
  intros Hjson Hm Hp Hrcv. unfold JSON. rewrite Hjson.
  rewrite (newParam_same _ rcv st e); [|exact Hm|exact Hp].
  simpl. rewrite Hp. by destruct (decide (ptr e ≠ rcv)).
Qed.

(** C4.  Declaring a name that m does not hold records it and returns the
    pointer that came with it.  Declaring it again with an equal Param
    returns the pointer of the first declaration, whichever pointer comes
    with the second, and leaves m as it was.  Declaring the name with a
    Param that differs in any field panics. *)
Theorem newParam_declare_twice p q ptr1 ptr2 st :
  m st !! Name p = None →
  Name q = Name p → q ≠ p →
  ∃ st1,
    newParam p ptr1 st = Ok (ptr1, st1) ∧
    m st1 !! Name p = Some {| param_Param := p; ptr := ptr1 |} ∧
    newParam p ptr2 st1 = Ok (ptr1, st1) ∧
    newParam q ptr2 st1 = Panic (differs_msg q).
Proof.
  intros Hfresh Hname Hne.
  eexists. split; [by apply newParam_fresh|].
  assert (m (set_m (<[Name p := {| param_Param := p; ptr := ptr1 |}]> (m st)) st)
            !! Name p = Some {| param_Param := p; ptr := ptr1 |}) as Hm
    by apply lookup_insert_eq.
  split; [exact Hm|]. split.
  - by rewrite (newParam_same _ _ _ _ Hm).
  - apply (newParam_differs _ _ _ {| param_Param := p; ptr := ptr1 |}).
    + by rewrite Hname.
    + simpl. congruence.
Qed.

End RegistryFacts.

(* ------------------------------------------------------------------ *)
(* Parse: filling the slots                                            *)
(* ------------------------------------------------------------------ *)

Section ParseFacts.
Context `{GoLib}.
Implicit Types (p : Param) (st : State) (e : param) (order : list param).
Implicit Types (vals : gmap string string) (h : gmap loc value).
Implicit Types (t : TypeTables) (mm : gmap string param).

Lemma raw_value_Ok vals p val :
  raw_value vals p = Ok val ↔
  val = chosen vals p ∧ (vals !! Name p = None → Required p = false).
Proof.
  unfold raw_value, chosen. destruct (vals !! Name p) as [v|]; simpl.
  - split; [by intros [= ->]|by intros [-> _]].
  - destruct (Required p); split; try done.
    + intros [_ Hreq]. by specialize (Hreq eq_refl).
    + by intros [= ->].
    + by intros [-> _].
Qed.

Lemma raw_value_required vals p :
  Required p = true → vals !! Name p = None →
  raw_value vals p = Panic (required_msg p).
Proof. unfold raw_value. by intros -> ->. Qed.

Lemma fill_required t mm vals p h :
  Required p = true → vals !! Name p = None →
  fill t mm vals p h = Panic (required_msg p).
Proof. intros Hr Hv. unfold fill. by rewrite raw_value_required. Qed.

Lemma fill_present t mm vals p h val :
  vals !! Name p = Some val → fill t mm vals p h = convert t mm p val h.
Proof. unfold fill, raw_value. by intros ->. Qed.

Lemma fill_default t mm vals p h :
  vals !! Name p = None → Required p = false →
  fill t mm vals p h = convert t mm p (Default p) h.
Proof. unfold fill, raw_value. by intros -> ->. Qed.

Lemma convert_Ok t mm e val h h' :
  mm !! Name (param_Param e) = Some e →
  convert t mm (param_Param e) val h = Ok h' ↔ converts t e val h h'.
Proof.
  intros Hmm. unfold convert, converts. rewrite Hmm. split.
  - destruct (paramTypeParsers t !! _) as [parse|]; [|done].
    destruct (h !! ptr e) as [cur|]; [|done].
    destruct (parse val cur) as [v| | |] eqn:Hp; [|done..].
    intros [= <-]. by exists parse, cur, v.
  - intros (parse & cur & v & -> & -> & -> & ->). done.
Qed.

Lemma fill_Ok t mm vals e h h' :
  mm !! Name (param_Param e) = Some e →
  fill t mm vals (param_Param e) h = Ok h' ↔
  (vals !! Name (param_Param e) = None → Required (param_Param e) = false) ∧
  converts t e (chosen vals (param_Param e)) h h'.
Proof.
  intros Hmm. unfold fill.
  destruct (raw_value vals (param_Param e)) as [val| | |] eqn:Hraw; simpl.
  - apply raw_value_Ok in Hraw as [-> Hreq]. rewrite convert_Ok by done. tauto.
  - split; [done|]. intros [Hreq _].
    assert (raw_value vals (param_Param e) = Ok (chosen vals (param_Param e)))
      as Hok by by apply raw_value_Ok.
    congruence.
  - split; [done|]. intros [Hreq _].
    assert (raw_value vals (param_Param e) = Ok (chosen vals (param_Param e)))
      as Hok by by apply raw_value_Ok.
    congruence.
  - split; [done|]. intros [Hreq _].
    assert (raw_value vals (param_Param e) = Ok (chosen vals (param_Param e)))
      as Hok by by apply raw_value_Ok.
    congruence.
Qed.

Lemma fill_all_app t mm vals pp1 pp2 h :
  fill_all t mm vals (pp1 ++ pp2) h =
  let! h1 := fill_all t mm vals pp1 h in fill_all t mm vals pp2 h1.
Proof.
  revert h. induction pp1 as [|p pp1 IH]; intros h; simpl; [done|].
  destruct (fill t mm vals p h); simpl; [apply IH|done..].
Qed.

(* Only the slots of the declared parameters are written. *)
Lemma fill_all_frame t mm vals order h h' l :
  stored mm order →
  fill_all t mm vals (param_Param <$> order) h = Ok h' →
  l ∉ ptr <$> order → h' !! l = h !! l.
Proof.
  intros Hst. revert h.
  induction Hst as [|e order He _ IH]; intros h Hfill Hl; simpl in *.
  - by injection Hfill as ->.
  - destruct (fill t mm vals (param_Param e) h) as [h1| | |] eqn:Hf; [|done..].
    simpl in Hfill. apply fill_Ok in Hf as [_ (parse & cur & v & _ & _ & _ & ->)]; [|done].
    apply not_elem_of_cons in Hl as [Hne Hl].
    rewrite (IH _ Hfill Hl). by rewrite lookup_insert_ne.
Qed.

(* Each declared parameter is converted once, from what its slot held
   before the pass, and its slot holds the result after the pass. *)
Lemma fill_all_slot t mm vals order h h' e :
  stored mm order → NoDup (ptr <$> order) →
  fill_all t mm vals (param_Param <$> order) h = Ok h' →
  e ∈ order →
  (vals !! Name (param_Param e) = None → Required (param_Param e) = false) ∧
  ∃ parse cur v,
    paramTypeParsers t !! ParamType (param_Param e) = Some parse ∧
    h !! ptr e = Some cur ∧
    parse (chosen vals (param_Param e)) cur = Ok v ∧
    h' !! ptr e = Some v.
Proof.
  intros Hst. revert h.
  induction Hst as [|e0 order He0 Hst IH]; intros h Hnd Hfill Hin.
  - by apply elem_of_nil in Hin.
  - simpl in Hnd, Hfill. apply NoDup_cons in Hnd as [Hfresh Hnd].
    destruct (fill t mm vals (param_Param e0) h) as [h1| | |] eqn:Hf; [|done..].
    simpl in Hfill.
    apply fill_Ok in Hf as [Hreq (parse & cur & v & Hp & Hcur & Hv & ->)]; [|done].
    apply elem_of_cons in Hin as [->|Hin].
    + split; [done|]. exists parse, cur, v. repeat split; try done.
      rewrite (fill_all_frame _ _ _ _ _ _ _ Hst Hfill Hfresh).
      apply lookup_insert_eq.
    + destruct (IH _ Hnd Hfill Hin) as [Hreq' (parse' & cur' & v' & Hp' & Hcur' & Hv' & Hh')].
      split; [done|]. exists parse', cur', v'. repeat split; try done.
      rewrite lookup_insert_ne in Hcur'; [done|].
      intros Heq. apply Hfresh. rewrite Heq. by apply list_elem_of_fmap_2.
Qed.

(* A parameter that faults whatever the heap holds makes the pass fault. *)
Lemma fill_all_not_Ok t mm vals pp p h :
  p ∈ pp → (∀ h0, ¬ is_Ok (fill t mm vals p h0)) →
  ¬ is_Ok (fill_all t mm vals pp h).
Proof.
  intros Hin Hbad. revert h.
  induction pp as [|p0 pp IH]; intros h; [by apply elem_of_nil in Hin|].
  simpl. apply elem_of_cons in Hin as [<-|Hin].
  - specialize (Hbad h). by destruct (fill t mm vals p h).
  - destruct (fill t mm vals p0 h); simpl; [by apply IH|by intros []..].
Qed.

(* Whatever order range m takes, its entries are stored under their names. *)
Lemma range_m_stored st order :
  registry_wf st → order ≡ₚ range_m st → stored (m st) order.
Proof.
  intros Hwf Hperm. apply Forall_forall. intros e He.
  rewrite Hperm in He. unfold range_m in He.
  apply list_elem_of_fmap in He as ([name e'] & -> & Hin).
  apply elem_of_map_to_list in Hin. simpl.
  by rewrite (Hwf name e' Hin).
Qed.

End ParseFacts.

Section ParseClaims.
Context `{GoLib}.
Implicit Types (p : Param) (l : loc) (st : State) (order : list param).
Implicit Types (vals : gmap string string) (s : Source).

Lemma ParseIn_Ok order s st vals st' :
  s (param_Param <$> order) = Ok vals →
  ParseIn order s st = Ok st' →
  fill_all (tables st) (m st) vals (param_Param <$> order) (heap st)
  = Ok (heap st').
Proof.
  unfold ParseIn. intros ->.
  destruct (fill_all _ _ _ _ _) as [h| | |]; simpl; [|done..].
  by intros [= <-].
Qed.

Lemma ParseIn_slot order s st vals st' p l :
  registry_wf st → slots_wf st → order ≡ₚ range_m st →
  s (param_Param <$> order) = Ok vals →
  {| param_Param := p; ptr := l |} ∈ order →
  ParseIn order s st = Ok st' →
  (vals !! Name p = None → Required p = false) ∧
  ∃ parse cur v,
    paramTypeParsers (tables st) !! ParamType p = Some parse ∧
    heap st !! l = Some cur ∧
    parse (chosen vals p) cur = Ok v ∧
    heap st' !! l = Some v.
Proof.
  intros Hwf Hslots Hperm Hs Hin Hparse.
  apply (fill_all_slot (tables st) (m st) vals order (heap st) (heap st')
           {| param_Param := p; ptr := l |}); try done.
  - by apply range_m_stored.
  - by apply (range_m_NoDup st).
  - by apply (ParseIn_Ok order s).
Qed.

(** C3.  For a declared parameter p with slot l, in whatever order Parse
    goes through a registry whose entries sit under their names and have
    slots of their own: if p is required and the source's result
    has no value for its name, the step for p panics with "parameter ...
    required but not set", Parse does not return, and it panics with that
    message once the parameters before p went through; and when Parse
    returns, the slot of p holds the conversion of the source's value for
    the name of p if there is one, and of the default of p otherwise. *)
Theorem Parse_resolves_by_precedence order s st vals p l :
  registry_wf st → slots_wf st → order ≡ₚ range_m st →
  s (param_Param <$> order) = Ok vals →
  {| param_Param := p; ptr := l |} ∈ order →
  (Required p = true → vals !! Name p = None →
     (∀ h, fill (tables st) (m st) vals p h = Panic (required_msg p)) ∧
     ¬ is_Ok (ParseIn order s st) ∧
     (∀ before after h1,
        order = before ++ {| param_Param := p; ptr := l |} :: after →
        fill_all (tables st) (m st) vals (param_Param <$> before) (heap st) = Ok h1 →
        ParseIn order s st = Panic (required_msg p))) ∧
  (∀ st', ParseIn order s st = Ok st' →
     (vals !! Name p = None → Required p = false) ∧
     ∃ parse cur v,
       paramTypeParsers (tables st) !! ParamType p = Some parse ∧
       heap st !! l = Some cur ∧
       parse (match vals !! Name p with Some val => val | None => Default p end) cur
         = Ok v ∧
       heap st' !! l = Some v).
Proof.
  intros Hwf Hslots Hperm Hs Hin. split.
  - intros Hreq Habsent. split; [|split].
    + intros h. by apply fill_required.
    + unfold ParseIn. rewrite Hs.
      pose proof (fill_all_not_Ok (tables st) (m st) vals
                    (param_Param <$> order) p (heap st)) as Hbad.
      destruct (fill_all _ _ _ _ _); simpl; [|by intros []..].
      intros _. apply Hbad.
      * by apply (list_elem_of_fmap_2 param_Param) in Hin.
      * intros h0. rewrite fill_required by done. by intros [].
      * done.
    + intros before after h1 -> Hbefore. unfold ParseIn. rewrite Hs.
      rewrite fmap_app, fill_all_app, Hbefore. simpl.
      by rewrite fill_required.
  - intros st' Hparse.
    destruct (ParseIn_slot order s st vals st' p l) as [Hreq Hslot]; try done.
Qed.

(** C10.  For a required parameter p with slot l, in a registry whose
    entries sit under their names and have slots of their own, whose name
    the source's result maps to the empty string: the required check passes, since the
    key is present; the step for p is the type parser applied to the empty
    string; when Parse returns the slot holds what that parser made of it;
    and for a parameter of the string type the slot holds the empty string,
    whatever the default of p is.  Declared alone, such a string parameter
    makes Parse return. *)
Theorem Parse_required_empty_value order s st vals p l :
  registry_wf st → slots_wf st → order ≡ₚ range_m st →
  s (param_Param <$> order) = Ok vals →
  {| param_Param := p; ptr := l |} ∈ order →
  Required p = true → vals !! Name p = Some "" →
  raw_value vals p = Ok "" ∧
  (∀ h, fill (tables st) (m st) vals p h = convert (tables st) (m st) p "" h) ∧
  (∀ st', ParseIn order s st = Ok st' →
     ∃ parse cur v,
       paramTypeParsers (tables st) !! ParamType p = Some parse ∧
       heap st !! l = Some cur ∧ parse "" cur = Ok v ∧
       heap st' !! l = Some v) ∧
  (paramTypeParsers (tables st) !! ParamType p = Some parseParamTypeString →
     (∀ st', ParseIn order s st = Ok st' → heap st' !! l = Some (VString "")) ∧
     (∀ cur, order = [ {| param_Param := p; ptr := l |} ] →
        heap st !! l = Some (VString cur) →
        ∃ st', ParseIn order s st = Ok st' ∧ heap st' !! l = Some (VString ""))).
Proof.
  intros Hwf Hslots Hperm Hs Hin Hreq Hval.
  assert (chosen vals p = "") as Hchosen by (unfold chosen; by rewrite Hval).
  assert (∀ st', ParseIn order s st = Ok st' →
     ∃ parse cur v,
       paramTypeParsers (tables st) !! ParamType p = Some parse ∧
       heap st !! l = Some cur ∧ parse "" cur = Ok v ∧
       heap st' !! l = Some v) as Hslot.
  { intros st' Hparse.
    destruct (ParseIn_slot order s st vals st' p l) as [_ Hslot]; try done.
    by rewrite Hchosen in Hslot. }
  split; [|split; [|split]].
  - unfold raw_value. by rewrite Hval.
  - intros h. by apply fill_present.
  - exact Hslot.
  - intros Hstring. split.
    + intros st' Hparse.
      destruct (Hslot st' Hparse) as (parse & cur & v & Hp & _ & Hv & Hl).
      rewrite Hstring in Hp. injection Hp as <-.
      destruct cur; simpl in Hv; try done. by injection Hv as <-.
    + intros cur -> Hcur.
      pose proof (range_m_stored st _ Hwf Hperm) as Hst.
      apply Forall_cons in Hst as [Hst _]. simpl in Hst.
      unfold ParseIn. rewrite Hs. simpl.
      rewrite (fill_present _ _ _ _ _ "" Hval).
      unfold convert. rewrite Hstring, Hst. simpl. rewrite Hcur. simpl.
      eexists. split; [done|]. simpl. apply lookup_insert_eq.
Qed.

End ParseClaims.

(* ------------------------------------------------------------------ *)
(* The command-line source                                             *)
(* ------------------------------------------------------------------ *)

Lemma SplitN2_no_EQ name : no_EQ name → strings.SplitN2 EQ name = (name, None).
Proof.
  unfold no_EQ. induction name as [|c name IH]; simpl; [done|].
  destruct (decide (c = EQ)); [done|]. simpl. intros Hn.
  by rewrite (IH Hn).
Qed.


Section CLIFacts.
Context `{GoLib}.
Variable w : World.
Implicit Types (cliM : gmap string Param) (pp : list Param) (p : Param).
Implicit Types (args rest : list string) (found : gmap string string).

(* One turn of the loop on a token that names a declared parameter *)
Lemma parseCLI_loop_declared cliM pp arg name ov p rest found :
  strings.SplitN2 EQ arg = (name, ov) →
  not_help_or_version name → cliM !! name = Some p →
  parseCLI_loop w cliM pp (arg :: rest) found =
  if decide (ParamType p = ParamTypeBool) then
    match ov, rest with
    | Some argVal, _ => parseCLI_loop w cliM pp rest (<[Name p := argVal]> found)
    | None, next :: rest' =>
        if negb (strings.HasPrefix next "-")
        then parseCLI_loop w cliM pp rest' (<[Name p := next]> found)
        else parseCLI_loop w cliM pp rest (<[Name p := bareBool p]> found)
    | None, [] => parseCLI_loop w cliM pp rest (<[Name p := bareBool p]> found)
    end
  else
    match ov, rest with
    | Some argVal, _ => parseCLI_loop w cliM pp rest (<[Name p := argVal]> found)
    | None, next :: rest' => parseCLI_loop w cliM pp rest' (<[Name p := next]> found)
    | None, [] => parseCLI_loop w cliM pp rest (<[Name p := ""]> found)
    end.
Proof.
  intros Hsplit [Hh Hv] Hp. simpl. rewrite Hsplit. simpl.
  destruct (decide (name = "-h" ∨ name = "--help")); [done|].
  destruct (decide (name = "-V" ∨ name = "--version")); [done|].
  by rewrite Hp.
Qed.




(* Unless it prints the help text, parseCLI leaves pp as it found it. *)
Lemma parseCLI_loop_pp cliM pp args found :
  fst (parseCLI_loop w cliM pp args found) = pp ∨
  parseCLI_loop w cliM pp args found
  = (fst (cliHelpStr w pp), Exit (fmt_Printf (snd (cliHelpStr w pp)))).
Proof.
  remember (length args) as n eqn:Hn.
  assert (length args ≤ n) as Hlen by lia. clear Hn.
  revert args found Hlen. induction n as [|n IH]; intros args found Hlen.
  - destruct args; [by left|simpl in Hlen; lia].
  - destruct args as [|arg args]; [by left|]. simpl in Hlen. simpl.
    destruct (decide _); [by right|].
    destruct (decide _); [by left|].
    destruct (cliM !! _) as [p|]; [|apply IH; lia].
    destruct (decide (ParamType p = ParamTypeBool)),
      (snd (strings.SplitN2 EQ arg)) as [argVal|], args as [|next args];
      try (apply IH; simpl in *; lia).
    destruct (negb (strings.HasPrefix next "-")); apply IH; simpl in *; lia.
Qed.

Lemma parseCLI_returns_pp args pp vals :
  snd (parseCLI w args pp) = Ok vals → fst (parseCLI w args pp) = pp.
Proof.
  unfold parseCLI. intros Hok.
  destruct (parseCLI_loop_pp (cliM_of pp) pp args ∅) as [Hpp|Hhelp]; [done|].
  by rewrite Hhelp in Hok.
Qed.

(* Asked for the help text, parseCLI hands pp to cliHelpStr, which sorts
   that very slice by name; the text is then printed and the process ends
   inside the call. *)
Lemma parseCLI_help_sorts_then_exits :
  parseCLI w ["-h"] [param_b; param_a]
  = ([param_a; param_b],
     Exit (fmt_Printf (snd (cliHelpStr w [param_b; param_a])))).
Proof. reflexivity. Qed.

End CLIFacts.

(* ------------------------------------------------------------------ *)
(* The JSON-file source                                                *)
(* ------------------------------------------------------------------ *)

Section JSONFacts.
Context `{GoLib}.
Variable w : World.
Variable t : TypeTables.
Implicit Types (jm out vals : gmap string string) (pp : list Param).

Lemma drop_nulls_lookup jm k :
  drop_nulls jm !! k =
  match jm !! k with
  | Some j => if decide (j = "null") then None else Some j
  | None => None
  end.
Proof.
  unfold drop_nulls. destruct (jm !! k) as [j|] eqn:Hk.
  - destruct (decide (j = "null")) as [->|Hj].
    + apply map_lookup_filter_None. right. intros j Hj. simpl.
      rewrite Hk in Hj. injection Hj as <-. tauto.
    + by apply map_lookup_filter_Some.
  - apply map_lookup_filter_None. by left.
Qed.

(* A null is read as a key that is not there. *)
Lemma sourceJSON_loop_drop_nulls jm pp out :
  sourceJSON_loop t jm pp out = sourceJSON_loop t (drop_nulls jm) pp out.
Proof.
  revert out. induction pp as [|p pp IH]; intros out; simpl; [done|].
  rewrite drop_nulls_lookup.
  destruct (jm !! strings_ToLower (Name p)) as [j|]; [|apply IH].
  destruct (decide (j = "null")) as [Hnull|Hj]; [apply IH|].
  destruct (decide (j = "null")); [done|].
  destruct (paramTypeJSONStringers t !! ParamType p) as [stringer|]; [|done].
  destruct (stringer j); simpl; [apply IH|done..].
Qed.

(* The loop writes nothing under a name whose key is null or missing. *)
Lemma sourceJSON_loop_untouched jm pp out out' name :
  jm !! strings_ToLower name = Some "null" ∨ jm !! strings_ToLower name = None →
  sourceJSON_loop t jm pp out = Ok out' → out' !! name = out !! name.
Proof.
  intros Hname. revert out.
  induction pp as [|p pp IH]; intros out; simpl; [by intros [= ->]|].
  destruct (jm !! strings_ToLower (Name p)) as [j|] eqn:Hj; [|apply IH].
  destruct (decide (j = "null")); [apply IH|].
  destruct (paramTypeJSONStringers t !! ParamType p) as [stringer|]; [|done].
  destruct (stringer j) as [str| | |]; simpl; [|done..].
  intros Hloop. rewrite (IH _ Hloop). apply lookup_insert_ne.
  intros Heq. rewrite Heq in Hj. destruct Hname; congruence.
Qed.

(** C7.  When the inner source answers m and a document is decoded to jm:
    the result of sourceJSON.Parse is the one it would be had the document
    not held its null-valued keys at all, with m laid over what the
    document gives; so every key of m has its value from m in the result,
    and a name whose key is null in the document is in the result only if,
    and as, it is in m. *)
Theorem sourceJSON_null_absent_inner_wins inner test pp m0 doc jm :
  inner (pp ++ [configFileParam]) = Ok m0 →
  sourceJSON_reader w test m0 = Ok (Some doc) →
  json_Decode doc = Ok jm →
  sourceJSON w t inner test pp =
    (let! out := sourceJSON_loop t (drop_nulls jm) (pp ++ [configFileParam]) ∅ in
     Ok (m0 ∪ out)) ∧
  ∀ vals, sourceJSON w t inner test pp = Ok vals →
    (∀ k v, m0 !! k = Some v → vals !! k = Some v) ∧
    (∀ name, jm !! strings_ToLower name = Some "null" →
             vals !! name = m0 !! name).
Proof.
  intros Hinner Hreader Hdecode.
  assert (sourceJSON w t inner test pp =
    (let! out := sourceJSON_loop t jm (pp ++ [configFileParam]) ∅ in
     Ok (m0 ∪ out))) as Hrun.
  { unfold sourceJSON. rewrite Hinner. simpl. rewrite Hreader. simpl.
    rewrite Hdecode. simpl.
    destruct (sourceJSON_loop t jm _ ∅); simpl; [|done..].
    by rewrite range_assign_union. }
  split.
  - by rewrite Hrun, sourceJSON_loop_drop_nulls.
  - intros vals. rewrite Hrun.
    destruct (sourceJSON_loop t jm _ ∅) as [out| | |] eqn:Hloop; simpl; [|done..].
    intros [= <-]. split.
    + intros k v Hk. by apply lookup_union_Some_l.
    + intros name Hnull.
      pose proof (sourceJSON_loop_untouched jm _ ∅ out name (or_introl Hnull) Hloop)
        as Hout.
      rewrite lookup_empty in Hout. rewrite lookup_union, Hout.
      by destruct (m0 !! name).
Qed.

End JSONFacts.

(* ------------------------------------------------------------------ *)
(* More on the scheduler                                               *)
(* ------------------------------------------------------------------ *)

Section SchedulerOrder.
Context `{GoLib}.
Implicit Types (fn g k : callback) (s : spin_state) (dos fns : list callback).
Implicit Types (lg : list string) (st : State).

Lemma spin_loop_wf dos : sched_wf (spin_loop dos).
Proof. by destruct dos. Qed.

Lemma run_wf fn s lg : sched_wf s → sched_wf (fst (run fn s lg)).
Proof.
  revert s lg. induction fn as [|e k IH|g IHg k IHk]; intros s lg Hwf; simpl.
  - done.
  - by apply IH.
  - destruct s as [dos|].
    + apply IHk, spin_loop_wf.
    + apply IHk. by rewrite run_Stopped.
Qed.

Lemma Do_wf fn st : sched_wf (spin st) → sched_wf (spin (Do fn st)).
Proof.
  unfold Do, Do_sched. destruct (spin st) as [dos|]; simpl; intros Hwf.
  - apply spin_loop_wf.
  - by rewrite run_Stopped.
Qed.

Lemma drain_ends_Stopped fuel s lg r :
  sched_wf s → drain fuel s lg = Some r → fst r = Stopped.
Proof.
  revert s lg. induction fuel as [|fuel IH]; intros s lg Hwf.
  - destruct s as [[|fn dos]|]; simpl; [done|done|by intros [= <-]].
  - destruct s as [[|fn dos]|]; simpl; [done| |by intros [= <-]].
    apply IH, run_wf, spin_loop_wf.
Qed.

Lemma drain_all_ends_Stopped s lg : sched_wf s → fst (drain_all s lg) = Stopped.
Proof.
  intros Hwf. apply (drain_ends_Stopped (queue_weight s) s lg); [done|].
  apply drain_all_Some.
Qed.

Lemma run_plain fn s lg : plain fn → run fn s lg = (s, lg ++ emitted fn).
Proof.
  unfold plain. revert lg.
  induction fn as [|e k IH|g _ k _]; intros lg Hplain; simpl in *.
  - by rewrite app_nil_r.
  - rewrite IH by done. by rewrite <- app_assoc.
  - done.
Qed.

Lemma drain_all_plain dos lg :
  Forall plain dos →
  drain_all (spin_loop dos) lg = (Stopped, lg ++ concat (emitted <$> dos)).
Proof.
  intros Hplain. revert lg.
  induction Hplain as [|fn dos Hfn _ IH]; intros lg.
  - simpl. by rewrite app_nil_r.
  - change (spin_loop (fn :: dos)) with (Spinning (fn :: dos)).
    rewrite drain_all_cons, run_plain by done. simpl.
    rewrite IH. by rewrite <- app_assoc.
Qed.

Lemma Do_each_queues fns st dos :
  spin st = Spinning dos → dos ≠ [] →
  m (Do_each fns st) = m st ∧ heap (Do_each fns st) = heap st ∧
  tables (Do_each fns st) = tables st ∧
  spin (Do_each fns st) = Spinning (dos ++ fns) ∧ log (Do_each fns st) = log st.
Proof.
  revert st dos. induction fns as [|fn fns IH]; intros st dos Hspin Hdos; simpl.
  - by rewrite app_nil_r.
  - assert (spin (Do fn st) = Spinning (dos ++ [fn])) as Hnext.
    { unfold Do, Do_sched. rewrite Hspin. simpl. unfold queue_send.
      by destruct dos. }
    destruct (IH (Do fn st) (dos ++ [fn]) Hnext) as (Hm & Hh & Ht & Hs & Hl).
    { by destruct dos. }
    rewrite Hm, Hh, Ht, Hs, Hl, <- app_assoc. repeat split.
    unfold Do, Do_sched. by rewrite Hspin.
Qed.

(** X1.  Functions that do not call Do themselves, handed to Do one after
    the other on a freshly reset package, are all called by the next Parse,
    in the order in which they were handed over, and nothing else is. *)
Theorem Do_calls_in_registration_order st fns vals :
  Forall plain fns →
  ∃ st', Parse (SourceStub vals) (Do_each fns (Reset st)) = Ok st' ∧
         log st' = log st ++ concat (emitted <$> fns) ∧
         spin st' = Stopped.
Proof.
  intros Hplain.
  destruct (Do_each_queues fns (Reset st) [noop] eq_refl) as (Hm & _ & _ & Hs & Hl);
    [done|].
  rewrite Parse_nothing_declared by done. eexists. split; [done|]. simpl.
  rewrite Hs, Hl.
  change (Spinning ([noop] ++ fns)) with (spin_loop (noop :: fns)).
  rewrite drain_all_plain by (constructor; done). done.
Qed.

(** X2.  A function that Parse receives while others are still queued
    behind it is called with spin still in its loop: what it emits is
    logged, and the functions it hands to Do are appended to the end of the
    queue, in the order it handed them over, behind everything queued
    before; none of them runs before it has returned.  When the queued
    functions and the ones it hands over do not call Do themselves, the
    pass logs what it emits, then what those queued before emit, then what
    the ones it handed over emit. *)
Theorem drain_queues_behind fn dos lg :
  dos ≠ [] →
  call_recv (Spinning (fn :: dos)) = Some (fn, Spinning dos) ∧
  run fn (Spinning dos) lg = (Spinning (dos ++ registered fn), lg ++ emitted fn) ∧
  drain_all (Spinning (fn :: dos)) lg
  = drain_all (Spinning (dos ++ registered fn)) (lg ++ emitted fn) ∧
  (Forall plain dos → Forall plain (registered fn) →
   drain_all (Spinning (fn :: dos)) lg
   = (Stopped,
      lg ++ emitted fn ++ concat (emitted <$> dos)
         ++ concat (emitted <$> registered fn))).
Proof.
  intros Hdos.
  assert (spin_loop dos = Spinning dos) as Hloop by by destruct dos.
  assert (drain_all (Spinning (fn :: dos)) lg
          = drain_all (Spinning (dos ++ registered fn)) (lg ++ emitted fn)) as Hstep.
  { rewrite drain_all_cons, Hloop. by rewrite run_Spinning. }
  split; [simpl; by rewrite Hloop|]. split; [by apply run_Spinning|].
  split; [exact Hstep|].
  intros Hplain Hreg. rewrite Hstep.
  assert (Spinning (dos ++ registered fn) = spin_loop (dos ++ registered fn)) as ->
    by by destruct dos.
  rewrite drain_all_plain by by apply Forall_app.
  by rewrite fmap_app, concat_app, <- !app_assoc.
Qed.

Lemma pending_spin_loop dos : pending (spin_loop dos) = concat (all_emitted <$> dos).
Proof. by destruct dos. Qed.

Lemma run_conserves fn s lg :
  snd (run fn s lg) ++ pending (fst (run fn s lg))
  ≡ₚ lg ++ all_emitted fn ++ pending s.
Proof.
  revert s lg. induction fn as [|e k IH|g IHg k IHk]; intros s lg; simpl.
  - done.
  - rewrite IH. by rewrite <- app_assoc.
  - destruct s as [dos|].
    + rewrite IHk. unfold queue_send. rewrite pending_spin_loop. simpl.
      rewrite fmap_app, concat_app. simpl. rewrite app_nil_r.
      apply Permutation_app_head.
      rewrite (Permutation_app_comm (all_emitted g)), <- !app_assoc.
      apply Permutation_app_head, Permutation_app_comm.
    + rewrite IHk.
      pose proof (IHg Stopped lg) as Hg. rewrite run_Stopped in *. simpl in *.
      rewrite !app_nil_r in *. by rewrite Hg, <- app_assoc.
Qed.

Lemma drain_conserves fuel s lg r :
  drain fuel s lg = Some r → snd r ++ pending (fst r) ≡ₚ lg ++ pending s.
Proof.
  revert s lg. induction fuel as [|fuel IH]; intros s lg.
  - destruct s as [[|fn dos]|]; simpl; [by intros [= <-]|done|by intros [= <-]].
  - destruct s as [[|fn dos]|]; simpl; [by intros [= <-]| |by intros [= <-]].
    intros Hd. by rewrite (IH _ _ Hd), run_conserves, pending_spin_loop.
Qed.

Lemma ParseIn_drains order (s : Source) st st' :
  ParseIn order s st = Ok st' →
  m st' = ∅ ∧ tables st' = tables st ∧
  spin st' = fst (drain_all (spin st) (log st)) ∧
  log st' = snd (drain_all (spin st) (log st)).
Proof.
  unfold ParseIn. destruct (s _); [|done..].
  destruct (fill_all _ _ _ _ _); simpl; [|done..]. by intros [= <-].
Qed.

(** X3.  By the time Parse returns, every function that was queued, and
    every function handed to Do while they ran, has been called exactly
    once: what was emitted during the pass is, up to order, all that the
    queued functions and their descendants emit. *)
Theorem Parse_runs_each_once order (s : Source) st st' :
  sched_wf (spin st) →
  ParseIn order s st = Ok st' →
  log st' ≡ₚ log st ++ pending (spin st) ∧ pending (spin st') = [].
Proof.
  intros Hwf Hparse.
  destruct (ParseIn_drains _ _ _ _ Hparse) as (_ & _ & Hspin & Hlog).
  pose proof (drain_conserves _ _ _ _ (drain_all_Some (spin st) (log st))) as Hcons.
  rewrite drain_all_ends_Stopped in Hcons by done.
  rewrite Hspin, Hlog, drain_all_ends_Stopped by done.
  simpl in Hcons. rewrite app_nil_r in Hcons. done.
Qed.

(** X4.  When Parse returns, the registry is empty and the scheduler is
    closed for good: every later Do calls its function on the spot, and a
    second Parse, whatever source it is given that answers, changes
    nothing and calls nothing. *)
Theorem Parse_closes order (s : Source) st st' :
  sched_wf (spin st) →
  ParseIn order s st = Ok st' →
  m st' = ∅ ∧ spin st' = Stopped ∧
  (∀ fn, log (Do fn st') = snd (run fn Stopped (log st')) ∧
         spin (Do fn st') = Stopped) ∧
  (∀ vals, Parse (SourceStub vals) st' = Ok st').
Proof.
  intros Hwf Hparse.
  destruct (ParseIn_drains _ _ _ _ Hparse) as (Hm & _ & Hspin & _).
  rewrite drain_all_ends_Stopped in Hspin by done.
  split; [done|]. split; [done|]. split.
  - intros fn. unfold Do, Do_sched. rewrite Hspin. simpl.
    split; [done|apply run_Stopped].
  - intros vals. rewrite Parse_nothing_declared by done.
    rewrite Hspin. destruct st'. simpl in *. by subst.
Qed.

(** X5.  Reset throws away what is queued: the functions handed to Do
    before a Reset are never called, not by Reset and not by the Parse
    that follows it, and the slots are left as they were. *)
Theorem Reset_discards_queue st vals :
  Parse (SourceStub vals) (Reset st)
  = Ok {| m := ∅; heap := heap st; tables := tables st; spin := Stopped;
          log := log st |}.
Proof. by rewrite Parse_nothing_declared. Qed.

End SchedulerOrder.

(* ------------------------------------------------------------------ *)
(* More on the environment source                                      *)
(* ------------------------------------------------------------------ *)

Section EnvMore.
Context `{GoLib}.
Implicit Types (pp : list Param) (p q : Param) (ee : list string).
Implicit Types (envM : gmap string Param) (ret : gmap string string).

Lemma parseEnv_loop_app envM pre rest ret :
  Forall has_EQ pre →
  ∃ ret', parseEnv_loop envM pre ret = Ok ret' ∧
          parseEnv_loop envM (pre ++ rest) ret = parseEnv_loop envM rest ret'.
Proof.
  intros Hpre. revert ret.
  induction Hpre as [|e pre [v He] _ IH]; intros ret; simpl; [by eexists|].
  rewrite He. destruct (envM !! _); apply IH.
Qed.

(** X6.  parseEnv fails on the first entry that has no "=", with an error
    that quotes that entry, and returns no map; as long as every entry has
    one it returns a map, whatever the parameters are. *)
Theorem parseEnv_malformed pre pp :
  Forall has_EQ pre →
  (∃ ret, parseEnv pre pp = Ok ret) ∧
  (∀ e post, no_EQ e →
     parseEnv (pre ++ e :: post) pp
     = Err ("malformed environment variable: " +:+ strconv_Quote e)).
Proof.
  intros Hpre. unfold parseEnv. split.
  - destruct (parseEnv_loop_app (envM_of pp) pre [] ∅ Hpre) as (ret & Hret & _).
    by exists ret.
  - intros e post He.
    destruct (parseEnv_loop_app (envM_of pp) pre (e :: post) ∅ Hpre)
      as (ret & _ & ->).
    simpl. unfold no_EQ in He. by rewrite He.
Qed.

Lemma envM_fold_other pp envM n :
  n ∉ envName <$> pp →
  fold_left (λ envM p, <[envName p := p]> envM) pp envM !! n = envM !! n.
Proof.
  revert envM. induction pp as [|p pp IH]; intros envM Hn; simpl; [done|].
  rewrite fmap_cons in Hn. apply not_elem_of_cons in Hn as [Hne Hn].
  rewrite IH by done. by rewrite lookup_insert_ne.
Qed.

Lemma envM_fold_Some pp envM n q :
  fold_left (λ envM p, <[envName p := p]> envM) pp envM !! n = Some q →
  (q ∈ pp ∧ envName q = n) ∨ envM !! n = Some q.
Proof.
  revert envM. induction pp as [|p pp IH]; intros envM; simpl; [by right|].
  intros Hq. destruct (IH _ Hq) as [[Hin Hn]|Hins].
  - left. split; [by right|done].
  - rewrite lookup_insert in Hins. destruct (decide (envName p = n)) as [Hn|_].
    + injection Hins as <-. left. split; [by left|done].
    + by right.
Qed.

Lemma envM_of_declared pp p :
  NoDup (envName <$> pp) → p ∈ pp → envM_of pp !! envName p = Some p.
Proof.
  unfold envM_of. generalize (∅ : gmap string Param).
  induction pp as [|p0 pp IH]; intros envM Hnd Hin; [by apply elem_of_nil in Hin|].
  simpl. rewrite fmap_cons in Hnd. apply NoDup_cons in Hnd as [Hfresh Hnd].
  apply elem_of_cons in Hin as [->|Hin].
  - rewrite envM_fold_other by done. apply lookup_insert_eq.
  - by apply IH.
Qed.

Lemma parseEnv_loop_lookup envM ee ret ret' p :
  envM !! envName p = Some p →
  (∀ key q, envM !! key = Some q → envName q = key) →
  parseEnv_loop envM ee ret = Ok ret' →
  ret' !! Name p =
  match env_value (envName p) ee with Some v => Some v | None => ret !! Name p end.
Proof.
  intros Hp Hkeys. revert ret.
  induction ee as [|e ee IH]; intros ret; simpl; [by intros [= ->]|].
  destruct (snd (strings.SplitN2 EQ e)) as [v|] eqn:Hv; [|done].
  destruct (envM !! fst (strings.SplitN2 EQ e)) as [q|] eqn:Hq.
  - intros Hloop. rewrite (IH _ Hloop).
    destruct (env_value (envName p) ee); [done|].
    destruct (decide (fst (strings.SplitN2 EQ e) = envName p)) as [Hk|Hk].
    + rewrite Hk, Hp in Hq. injection Hq as <-. apply lookup_insert_eq.
    + apply lookup_insert_ne. intros Hname. apply Hk.
      rewrite <- (Hkeys _ _ Hq). unfold envName. by rewrite Hname.
  - intros Hloop. rewrite (IH _ Hloop).
    destruct (env_value (envName p) ee); [done|].
    destruct (decide (fst (strings.SplitN2 EQ e) = envName p)) as [Hk|Hk]; [|done].
    rewrite Hk, Hp in Hq. done.
Qed.

Lemma parseEnv_loop_keys envM pp ee ret ret' :
  (∀ key q, envM !! key = Some q → q ∈ pp) →
  keys_declared pp ret →
  parseEnv_loop envM ee ret = Ok ret' → keys_declared pp ret'.
Proof.
  intros HenvM. revert ret.
  induction ee as [|e ee IH]; intros ret Hret; simpl; [by intros [= <-]|].
  destruct (snd (strings.SplitN2 EQ e)) as [v|]; [|done].
  destruct (envM !! fst (strings.SplitN2 EQ e)) as [q|] eqn:Hq; [|by apply IH].
  apply IH. intros k. rewrite lookup_insert.
  destruct (decide (Name q = k)) as [<-|_]; [|apply Hret].
  intros _. exists q. split; [by apply (HenvM _ _ Hq)|done].
Qed.

(** X7.  When no two declared parameters share an environment name,
    parseEnv gives each declared parameter the value of the last
    environment entry whose key is its upper-cased name with "_" for "-",
    and no value when there is no such entry; and whatever the parameters
    are, the result has no key that is not the name of a declared one. *)
Theorem parseEnv_reads_declared ee pp ret :
  parseEnv ee pp = Ok ret →
  keys_declared pp ret ∧
  (NoDup (envName <$> pp) →
   ∀ p, p ∈ pp → ret !! Name p = env_value (envName p) ee).
Proof.
  unfold parseEnv. intros Hloop.
  assert (∀ key q, envM_of pp !! key = Some q → q ∈ pp ∧ envName q = key) as HenvM.
  { intros key q Hq. destruct (envM_fold_Some _ _ _ _ Hq) as [?|Hempty]; [done|].
    by rewrite lookup_empty in Hempty. }
  split.
  - apply (parseEnv_loop_keys (envM_of pp) pp ee ∅ ret); [| |done].
    + intros key q Hq. by destruct (HenvM key q Hq).
    + intros k [v Hk]. by rewrite lookup_empty in Hk.
  - intros Hnd p Hin.
    rewrite (parseEnv_loop_lookup (envM_of pp) ee ∅ ret p); [| | |done].
    + rewrite lookup_empty. by destruct (env_value (envName p) ee).
    + by apply envM_of_declared.
    + intros key q Hq. by destruct (HenvM key q Hq).
Qed.

End EnvMore.

(* ------------------------------------------------------------------ *)
(* More on the command-line source                                     *)
(* ------------------------------------------------------------------ *)

Section SortFacts.
Context {A : Type} (less : A → A → bool).
Hypothesis less_asym : ∀ a b, less a b = true → less b a = false.

Lemma sort_insert_perm x l : sort_insert less x l ≡ₚ x :: l.
Proof.
  induction l as [|y l IH]; simpl; [done|].
  destruct (less y x); [|done]. rewrite IH. apply Permutation_swap.
Qed.

Lemma sort_Slice_perm l : sort_Slice less l ≡ₚ l.
Proof.
  induction l as [|x l IH]; simpl; [done|].
  change (sort_insert less x (sort_Slice less l) ≡ₚ x :: l).
  by rewrite sort_insert_perm, IH.
Qed.

Lemma sort_insert_HdRel y x l :
  less x y = false → HdRel (λ a b, less b a = false) y l →
  HdRel (λ a b, less b a = false) y (sort_insert less x l).
Proof.
  intros Hxy Hl. destruct l as [|z l]; simpl; [by constructor|].
  destruct (less z x); constructor; [by inversion Hl|done].
Qed.

Lemma sort_insert_Sorted x l :
  Sorted (λ a b, less b a = false) l →
  Sorted (λ a b, less b a = false) (sort_insert less x l).
Proof.
  induction 1 as [|y l Hl IH Hhd]; simpl; [by repeat constructor|].
  destruct (less y x) eqn:Hyx.
  - constructor; [done|]. apply sort_insert_HdRel; [by apply less_asym|done].
  - by repeat constructor.
Qed.

Lemma sort_Slice_Sorted l : Sorted (λ a b, less b a = false) (sort_Slice less l).
Proof.
  induction l as [|x l IH]; [constructor|].
  change (Sorted (λ a b, less b a = false) (sort_insert less x (sort_Slice less l))).
  by apply sort_insert_Sorted.
Qed.

End SortFacts.

Lemma strings_lt_asym (a b : string) : strings.lt a b = true → strings.lt b a = false.
Proof.
  unfold strings.lt, String.ltb. rewrite (String.compare_antisym b a).
  by destruct (String.compare a b).
Qed.

Section CLIMore.
Context `{GoLib}.
Variable w : World.
Implicit Types (cliM : gmap string Param) (pp : list Param) (p : Param).
Implicit Types (args rest : list string) (found : gmap string string).

Lemma cliM_fold_Some pp cliM n q :
  fold_left (λ cliM p, <["--" +:+ Name p := p]> cliM) pp cliM !! n = Some q →
  q ∈ pp ∨ cliM !! n = Some q.
Proof.
  revert cliM. induction pp as [|p pp IH]; intros cliM; simpl; [by right|].
  intros Hq. destruct (IH _ Hq) as [Hin|Hins]; [left; by right|].
  rewrite lookup_insert in Hins. destruct (decide (_ = n)) as [_|_].
  - injection Hins as <-. left. by left.
  - by right.
Qed.

Lemma cliM_of_declared pp n q : cliM_of pp !! n = Some q → q ∈ pp.
Proof.
  intros Hq. destruct (cliM_fold_Some _ _ _ _ Hq) as [?|Hempty]; [done|].
  by rewrite lookup_empty in Hempty.
Qed.

Lemma keys_declared_insert pp found p v :
  p ∈ pp → keys_declared pp found → keys_declared pp (<[Name p := v]> found).
Proof.
  intros Hin Hfound k. rewrite lookup_insert.
  destruct (decide (Name p = k)) as [<-|_]; [|apply Hfound].
  intros _. by exists p.
Qed.

Lemma parseCLI_loop_total cliM pp args found :
  (∀ n q, cliM !! n = Some q → q ∈ pp) →
  keys_declared pp found →
  returns_or_exits (snd (parseCLI_loop w cliM pp args found)) ∧
  (Forall (λ a, not_help_or_version (fst (strings.SplitN2 EQ a))) args →
   ∃ found', parseCLI_loop w cliM pp args found = (pp, Ok found') ∧
             keys_declared pp found').
Proof.
  intros HcliM.
  remember (length args) as n eqn:Hn.
  assert (length args ≤ n) as Hlen by lia. clear Hn.
  revert args found Hlen. induction n as [|n IH]; intros args found Hlen Hfound.
  { destruct args; [|simpl in Hlen; lia]. split; [done|]. intros _. by exists found. }
  destruct args as [|arg args]; [split; [done|]; intros _; by exists found|].
  simpl in Hlen.
  assert (∀ rest found0, length rest ≤ length args → keys_declared pp found0 →
    returns_or_exits (snd (parseCLI_loop w cliM pp rest found0)) ∧
    (Forall (λ a, not_help_or_version (fst (strings.SplitN2 EQ a))) rest →
     ∃ found', parseCLI_loop w cliM pp rest found0 = (pp, Ok found') ∧
               keys_declared pp found')) as Hrec.
  { intros rest found0 Hrest. apply IH. lia. }
  assert (∀ next args', args = next :: args' →
    Forall (λ a, not_help_or_version (fst (strings.SplitN2 EQ a))) (arg :: args) →
    Forall (λ a, not_help_or_version (fst (strings.SplitN2 EQ a))) args') as Htail.
  { intros next args' -> Hall. by do 2 apply Forall_cons in Hall as [_ Hall]. }
  assert (Forall (λ a, not_help_or_version (fst (strings.SplitN2 EQ a))) (arg :: args) →
    not_help_or_version (fst (strings.SplitN2 EQ arg)) ∧
    Forall (λ a, not_help_or_version (fst (strings.SplitN2 EQ a))) args) as Hhead
    by (by intros ?%Forall_cons).
  simpl.
  destruct (decide (fst (strings.SplitN2 EQ arg) = "-h" ∨ _)) as [Hh|Hh].
  { split; [done|]. intros [[Hnot _] _]%Hhead. done. }
  destruct (decide (fst (strings.SplitN2 EQ arg) = "-V" ∨ _)) as [Hv|Hv].
  { split; [done|]. intros [[_ Hnot] _]%Hhead. done. }
  destruct (cliM !! fst (strings.SplitN2 EQ arg)) as [p|] eqn:Hp.
  2:{ destruct (Hrec args found) as [Hr Hok]; [done|done|].
      split; [done|]. intros [_ Hall]%Hhead. by apply Hok. }
  pose proof (HcliM _ _ Hp) as Hin.
  destruct (decide (ParamType p = ParamTypeBool)),
    (snd (strings.SplitN2 EQ arg)) as [argVal|], args as [|next args'];
    try destruct (negb (strings.HasPrefix next "-"));
    match goal with
    | |- context [parseCLI_loop w cliM pp ?r ?f] =>
        destruct (Hrec r f) as [Hr Hok];
          [simpl; lia|by apply keys_declared_insert|];
        split; [done|]; intros Hall; apply Hok;
        first [ by apply (Htail next r)
              | by apply Hhead in Hall as [_ Hall]
              | by constructor ]
    end.
Qed.

(** X8.  parseCLI never returns an error and never panics: it returns a
    map or ends the process with the help or version text.  When no
    argument is one of -h, --help, -V, --version (with or without a
    value after "="), it returns, leaves pp alone, and every key of the
    map is the name of a declared parameter. *)
Theorem parseCLI_never_fails args pp :
  returns_or_exits (snd (parseCLI w args pp)) ∧
  (Forall (λ a, not_help_or_version (fst (strings.SplitN2 EQ a))) args →
   ∃ found, parseCLI w args pp = (pp, Ok found) ∧ keys_declared pp found).
Proof.
  apply parseCLI_loop_total.
  - apply cliM_of_declared.
  - intros k [v Hk]. by rewrite lookup_empty in Hk.
Qed.


(** X10.  The list cliHelpStr leaves in the slice it was handed holds the
    same parameters as before, in the order of their names. *)
Theorem cliHelpStr_sorts_by_name pp :
  fst (cliHelpStr w pp) ≡ₚ pp ∧ Sorted by_name (fst (cliHelpStr w pp)).
Proof.
  unfold cliHelpStr. simpl. split.
  - apply sort_Slice_perm.
  - apply (sort_Slice_Sorted (λ a b, strings.lt (Name a) (Name b))).
    intros a b. apply strings_lt_asym.
Qed.

End CLIMore.

(* ------------------------------------------------------------------ *)
(* More on Sources, the JSON-file source and the type tables           *)
(* ------------------------------------------------------------------ *)

Section SourcesMore.
Implicit Types (ss : list Source) (pp : list Param) (acc : gmap string string).

Lemma Sources_loop_acc ss pp acc :
  Sources_loop ss pp acc = let! v := Sources_loop ss pp ∅ in Ok (v ∪ acc).
Proof.
  revert acc. induction ss as [|s ss IH]; intros acc; simpl.
  - by rewrite (left_id_L ∅ (∪)).
  - destruct (s pp) as [sm| | |]; simpl; [|done..].
    rewrite !range_assign_union, (IH (sm ∪ acc)), (IH (sm ∪ ∅)).
    destruct (Sources_loop ss pp ∅) as [v| | |]; simpl; [|done..].
    by rewrite (right_id_L ∅ (∪)), (assoc_L (∪)).
Qed.

Lemma Sources_loop_split ss1 ss2 pp acc :
  Sources_loop (ss1 ++ ss2) pp acc =
  let! a := Sources_loop ss1 pp acc in Sources_loop ss2 pp a.
Proof.
  revert acc. induction ss1 as [|s ss1 IH]; intros acc; simpl; [done|].
  destruct (s pp); simpl; [apply IH|done..].
Qed.

(** X11.  Sources can be nested without changing what they give: combining
    two combined lists of sources is combining all their sources in order,
    and a single source combined alone answers as it does by itself; this
    holds for failures and exits as well as for the maps. *)
Theorem Sources_nest ss1 ss2 (s : Source) pp :
  Sources [Sources ss1; Sources ss2] pp = Sources (ss1 ++ ss2) pp ∧
  Sources [s] pp = s pp.
Proof.
  unfold Sources. split; simpl.
  - rewrite Sources_loop_split.
    destruct (Sources_loop ss1 pp ∅) as [m1| | |]; simpl; [|done..].
    rewrite !range_assign_union, (right_id_L ∅ (∪)).
    rewrite (Sources_loop_acc ss2 pp m1).
    destruct (Sources_loop ss2 pp ∅) as [m2| | |]; simpl; [|done..].
    by rewrite range_assign_union.
  - destruct (s pp) as [sm| | |]; simpl; [|done..].
    by rewrite range_assign_union, (right_id_L ∅ (∪)).
Qed.

End SourcesMore.

Section JSONMore.
Context `{GoLib}.
Variable w : World.
Implicit Types (t : TypeTables) (jm out vals me mc : gmap string string).
Implicit Types (pp : list Param) (p : Param) (inner : Source).

(** X12.  As long as the inner source names no file, the source made by
    NewSourceJSON answers exactly as the inner source does when asked about
    the declared parameters and config-json-file: the same map, the same
    error, the same exit. *)
Theorem NewSourceJSON_without_file t inner pp :
  (∀ m0 : gmap string string, inner (pp ++ [configFileParam]) = Ok m0 →
         m0 !! paramName = None ∨ m0 !! paramName = Some "") →
  NewSourceJSON w t inner pp = inner (pp ++ [configFileParam]).
Proof.
  intros Hnofile. unfold NewSourceJSON, sourceJSON.
  destruct (inner (pp ++ [configFileParam])) as [m0| | |] eqn:Hinner; simpl; [|done..].
  unfold sourceJSON_reader.
  by destruct (Hnofile m0 eq_refl) as [-> | ->].
Qed.

(** X13.  When the inner source names a file, that file is the document,
    also when a test reader is set; and if the file cannot be opened, or
    its content cannot be decoded, the source returns that error and no
    map, whatever the inner source had found. *)
Theorem sourceJSON_file_errors t inner test pp (m0 : gmap string string) f :
  inner (pp ++ [configFileParam]) = Ok m0 →
  m0 !! paramName = Some f → f ≠ "" →
  (∀ e, os_Open w f = Err e → sourceJSON w t inner test pp = Err e) ∧
  (∀ doc e, os_Open w f = Ok doc → json_Decode doc = Err e →
            sourceJSON w t inner test pp = Err e) ∧
  (∀ doc jm, os_Open w f = Ok doc → json_Decode doc = Ok jm →
             sourceJSON w t inner test pp =
             (let! out := sourceJSON_loop t jm (pp ++ [configFileParam]) ∅ in
              Ok (m0 ∪ out))).
Proof.
  intros Hinner Hf Hne.
  assert (sourceJSON_reader w test m0 = (let! d := os_Open w f in Ok (Some d)))
    as Hreader.
  { unfold sourceJSON_reader. rewrite Hf. simpl.
    by destruct (decide (f ≠ "")). }
  unfold sourceJSON. rewrite Hinner. simpl. rewrite Hreader.
  split; [|split].
  - by intros e ->.
  - intros doc e -> Hdec. simpl. by rewrite Hdec.
  - intros doc jm -> Hdec. simpl. rewrite Hdec. simpl.
    destruct (sourceJSON_loop _ _ _ _); simpl; [|done..].
    by rewrite range_assign_union.
Qed.

Lemma sourceJSON_loop_no_stringer t jm pp out p j :
  p ∈ pp → paramTypeJSONStringers t !! ParamType p = None →
  jm !! strings_ToLower (Name p) = Some j → j ≠ "null" →
  ¬ is_Ok (sourceJSON_loop t jm pp out).
Proof.
  intros Hin Hnone Hj Hnull. revert out.
  induction pp as [|p0 pp IH]; intros out; [by apply elem_of_nil in Hin|].
  simpl. apply elem_of_cons in Hin as [<-|Hin].
  - rewrite Hj. destruct (decide (j = "null")); [done|].
    unfold JSONStringFunc in *. rewrite Hnone. by intros [].
  - destruct (jm !! strings_ToLower (Name p0)) as [j0|]; [|by apply IH].
    destruct (decide (j0 = "null")); [by apply IH|].
    destruct (paramTypeJSONStringers t !! ParamType p0) as [f|]; [|by intros []].
    destruct (f j0); simpl; [by apply IH|by intros []..].
Qed.

(** X14.  The built-in tables have a parser for int64 but no JSON stringer
    for it.  So when the decoded document holds a value other than null
    under the name of a declared int64 parameter, the JSON source does not
    return: it calls a nil function, and with that parameter first in pp
    the panic is the nil-function one. *)
Theorem sourceJSON_int64_panics inner test pp (m0 : gmap string string) doc jm p j :
  inner (pp ++ [configFileParam]) = Ok m0 →
  sourceJSON_reader w test m0 = Ok (Some doc) →
  json_Decode doc = Ok jm →
  p ∈ pp → ParamType p = ParamTypeInt64 →
  jm !! strings_ToLower (Name p) = Some j → j ≠ "null" →
  is_Some (paramTypeParsers builtinTables !! ParamTypeInt64) ∧
  ¬ is_Ok (sourceJSON w builtinTables inner test pp) ∧
  (∀ rest, pp = p :: rest →
     sourceJSON w builtinTables inner test pp = Panic nil_func_call).
Proof.
  intros Hinner Hreader Hdec Hin Htype Hj Hnull.
  assert (paramTypeJSONStringers builtinTables !! ParamType p = None) as Hnone
    by by rewrite Htype.
  split; [by eexists|]. split.
  - unfold sourceJSON. rewrite Hinner. simpl. rewrite Hreader. simpl.
    rewrite Hdec. simpl.
    pose proof (sourceJSON_loop_no_stringer builtinTables jm
                  (pp ++ [configFileParam]) ∅ p j) as Hbad.
    destruct (sourceJSON_loop _ _ _ _); simpl; [|by intros []..].
    intros _. apply Hbad; try done. apply elem_of_app. by left.
  - intros rest ->. unfold sourceJSON. rewrite Hinner. cbn [obind].
    rewrite Hreader. cbn [obind]. rewrite Hdec. cbn [obind].
    rewrite <- app_comm_cons. cbn [sourceJSON_loop]. rewrite Hj.
    destruct (decide (j = "null")); [done|].
    unfold JSONStringFunc in *. by rewrite Hnone.
Qed.

Lemma sourceJSON_inner_wins t inner test pp vals :
  sourceJSON w t inner test pp = Ok vals →
  ∃ m0 : gmap string string, inner (pp ++ [configFileParam]) = Ok m0 ∧
        ∀ k v, m0 !! k = Some v → vals !! k = Some v.
Proof.
  unfold sourceJSON.
  destruct (inner (pp ++ [configFileParam])) as [m0| | |]; simpl; [|done..].
  intros Hrun. exists m0. split; [done|].
  destruct (sourceJSON_reader w test m0) as [[doc|]| | |]; simpl in Hrun; [| |done..].
  - destruct (json_Decode doc) as [jm| | |]; simpl in Hrun; [|done..].
    destruct (sourceJSON_loop _ _ _ _) as [out| | |]; simpl in Hrun; [|done..].
    injection Hrun as <-. intros k v Hk.
    rewrite range_assign_union. by apply lookup_union_Some_l.
  - by injection Hrun as <-.
Qed.

(** X15.  The source Configure parses with puts the command line over the
    environment over the JSON file: when the environment source and the
    command-line source answer, a key the command line has carries the
    command line's value in the result, and a key only the environment has
    carries the environment's value, whatever the file says. *)
Theorem Configure_source_precedence t pp me mc vals :
  sourceEnv w (pp ++ [configFileParam]) = Ok me →
  sourceCLI w (pp ++ [configFileParam]) = Ok mc →
  Configure_source w t pp = Ok vals →
  ∀ k v,
    (mc !! k = Some v → vals !! k = Some v) ∧
    (mc !! k = None → me !! k = Some v → vals !! k = Some v).
Proof.
  intros Henv Hcli Hrun k v.
  apply sourceJSON_inner_wins in Hrun as (m0 & Hinner & Hwins).
  unfold Sources in Hinner. simpl in Hinner.
  rewrite Henv in Hinner. simpl in Hinner. rewrite Hcli in Hinner. simpl in Hinner.
  injection Hinner as <-. rewrite !range_assign_union in Hwins.
  split.
  - intros Hk. apply Hwins. by apply lookup_union_Some_l.
  - intros Hnone Hk. apply Hwins. rewrite lookup_union_r by done.
    by apply lookup_union_Some_l.
Qed.

Lemma Configure_parses_Configure_source st :
  Configure w st = Parse (Configure_source w (tables st)) st.
Proof. reflexivity. Qed.

(** X16.  CustomParamType adds a type that has no parser yet to all three
    tables, with the zero value of the example as the type of its slots,
    and leaves every other type as it was; registering the same name a
    second time is refused with a panic. *)
Theorem CustomParamType_registers name ex (parse : ParseFunc)
    (jp : JSONStringFunc) t :
  paramTypeParsers t !! name = None →
  ∃ t', CustomParamType name ex parse jp t = Ok t' ∧
        paramTypeParsers t' !! name = Some parse ∧
        paramTypeJSONStringers t' !! name = Some jp ∧
        customParamTypeTypes t' !! name = Some (zero_of ex) ∧
        (∀ other, other ≠ name →
           paramTypeParsers t' !! other = paramTypeParsers t !! other ∧
           paramTypeJSONStringers t' !! other = paramTypeJSONStringers t !! other ∧
           customParamTypeTypes t' !! other = customParamTypeTypes t !! other) ∧
        (∀ ex' parse' jp',
           CustomParamType name ex' parse' jp' t'
           = Panic ("lflag: paramType already defined: " +:+ name)).
Proof.
  intros Hfree. unfold CustomParamType at 1. rewrite Hfree.
  eexists. split; [done|]. simpl.
  split; [apply lookup_insert_eq|]. split; [apply lookup_insert_eq|].
  split; [apply lookup_insert_eq|]. split.
  - intros other Hne. by rewrite !lookup_insert_ne.
  - intros ex' parse' jp'. unfold CustomParamType. simpl.
    by rewrite lookup_insert_eq.
Qed.

End JSONMore.

(* ------------------------------------------------------------------ *)
(* Prefixed                                                            *)
(* ------------------------------------------------------------------ *)

Section PrefixedFacts.
Implicit Types (l xs ys : list string) (s sep : string).

Lemma append_nil_r s : s +:+ "" = s.
Proof.
  induction s as [|c s IH]; [done|].
  change (String.String c (s +:+ "") = String.String c s). by f_equal.
Qed.

Lemma append_assoc s1 s2 s3 : (s1 +:+ s2) +:+ s3 = s1 +:+ (s2 +:+ s3).
Proof.
  induction s1 as [|c s1 IH]; [done|].
  change (String.String c ((s1 +:+ s2) +:+ s3) = String.String c (s1 +:+ s2 +:+ s3)).
  by f_equal.
Qed.

Lemma append_nonempty s1 s2 : s1 ≠ "" → s1 +:+ s2 ≠ "".
Proof. by destruct s1. Qed.

Lemma Join_cons x l sep :
  l ≠ [] → strings.Join (x :: l) sep = x +:+ sep +:+ strings.Join l sep.
Proof. by destruct l. Qed.

Lemma Join_app xs ys sep :
  xs ≠ [] → ys ≠ [] →
  strings.Join (xs ++ ys) sep = strings.Join xs sep +:+ sep +:+ strings.Join ys sep.
Proof.
  intros Hxs Hys. induction xs as [|x xs IH]; [done|].
  destruct xs as [|x' xs].
  - simpl app. by rewrite Join_cons.
  - rewrite <- app_comm_cons. rewrite Join_cons by (simpl; done).
    rewrite IH by done. rewrite (Join_cons x (x' :: xs)) by done.
    by rewrite !append_assoc.
Qed.

Lemma Join_nonempty l sep :
  l ≠ [] → Forall (λ s, s ≠ "") l → strings.Join l sep ≠ "".
Proof.
  intros Hl Hall. destruct Hall as [|x l Hx Hall]; [done|].
  destruct l; [done|]. rewrite Join_cons by done. by apply append_nonempty.
Qed.

Lemma Prefixed_empty_iff l : Prefixed l = "" ↔ filter (λ s, s ≠ "") l = [].
Proof.
  unfold Prefixed. split; [|by intros ->].
  intros Hj. destruct (filter (λ s, s ≠ "") l) as [|x f] eqn:Hf; [done|].
  exfalso. apply (Join_nonempty (x :: f) "-"); [done| |done].
  rewrite <- Hf. apply Forall_forall. by intros s [Hs _]%list_elem_of_filter.
Qed.

Lemma Prefixed_single s : Prefixed [s] = s.
Proof.
  unfold Prefixed. rewrite filter_cons.
  destruct (decide (s ≠ "")) as [Hs|Hs]; [done|].
  simpl. by destruct (decide (s = "")) as [->|].
Qed.

Lemma Prefixed_pair a b :
  Prefixed [a; b] =
  if decide (a = "") then b
  else if decide (b = "") then a else a +:+ "-" +:+ b.
Proof.
  unfold Prefixed. rewrite !filter_cons, filter_nil.
  destruct (decide (a = "")) as [->|Ha], (decide (b = "")) as [->|Hb];
    repeat (destruct (decide _) as [?|?]; try done).
Qed.

Lemma Prefixed_app xs ys :
  Prefixed (xs ++ ys) =
  strings.Join (filter (λ s, s ≠ "") xs ++ filter (λ s, s ≠ "") ys) "-".
Proof. unfold Prefixed. by rewrite filter_app. Qed.

Lemma Prefixed_steps xs ys :
  Prefixed [Prefixed xs; Prefixed ys] = Prefixed (xs ++ ys).
Proof.
  rewrite Prefixed_pair, Prefixed_app.
  destruct (decide (Prefixed xs = "")) as [Hx|Hx].
  { apply Prefixed_empty_iff in Hx. by rewrite Hx. }
  destruct (decide (Prefixed ys = "")) as [Hy|Hy].
  { apply Prefixed_empty_iff in Hy. by rewrite Hy, app_nil_r. }
  rewrite Join_app; [done| |].
  - intros Hf. by apply Hx, Prefixed_empty_iff.
  - intros Hf. by apply Hy, Prefixed_empty_iff.
Qed.

(** X17.  Prefixed leaves the empty strings out and joins the others with
    "-": of no strings it is empty; an empty first string is skipped; a
    first string that is not empty is followed by "-" and the prefix of
    the rest, unless that is empty.  So prefixes can be built up in steps:
    prefixing two results of Prefixed gives what Prefixed gives for all
    the strings at once, and the result is empty only if every string
    is. *)
Theorem Prefixed_in_steps xs ys :
  Prefixed [] = "" ∧
  (∀ x, Prefixed (x :: xs) =
        if decide (x = "") then Prefixed xs
        else if decide (Prefixed xs = "") then x
        else x +:+ "-" +:+ Prefixed xs) ∧
  Prefixed [Prefixed xs; Prefixed ys] = Prefixed (xs ++ ys) ∧
  (Prefixed xs = "" ↔ Forall (λ s, s = "") xs).
Proof.
  split; [done|]. split; [|split].
  - intros x. change (x :: xs) with ([x] ++ xs).
    by rewrite <- Prefixed_steps, Prefixed_single, Prefixed_pair.
  - apply Prefixed_steps.
  - rewrite Prefixed_empty_iff. split.
    + intros Hf. apply Forall_forall. intros s Hs.
      destruct (decide (s = "")) as [|Hne]; [done|].
      assert (s ∈ filter (λ s, s ≠ "") xs) as Hin by by apply list_elem_of_filter.
      rewrite Hf in Hin. by apply elem_of_nil in Hin.
    + intros Hall. induction Hall as [|x xs -> _ IH]; [done|].
      by rewrite filter_cons.
Qed.

End PrefixedFacts.

(* ------------------------------------------------------------------ *)
(* More on declaring and Parse                                         *)
(* ------------------------------------------------------------------ *)

Section ParseMore.
Context `{GoLib}.
Implicit Types (p : Param) (l : loc) (st : State) (order : list param).
Implicit Types (vals : gmap string string) (s : Source) (h : gmap loc value).

(** X18.  A declaration that allocates its slot keeps the registry in
    order: afterwards the name is declared with the given Param and the
    returned slot, that slot is allocated, every other name is declared as
    before, no slot that was allocated has changed, and again every entry
    sits under its name with a slot of its own. *)
Theorem declare_keeps_slots zero p st l st1 :
  registry_wf st → slots_wf st →
  declare zero p st = Ok (l, st1) →
  registry_wf st1 ∧ slots_wf st1 ∧
  (∃ e, m st1 !! Name p = Some e ∧ param_Param e = p ∧ ptr e = l) ∧
  is_Some (heap st1 !! l) ∧
  (∀ name, name ≠ Name p → m st1 !! name = m st !! name) ∧
  (∀ l0, is_Some (heap st !! l0) → heap st1 !! l0 = heap st !! l0).
Proof.
  intros Hwf Hslots Hdecl.
  destruct (declare_wf zero p st (l, st1) Hwf Hslots Hdecl) as [Hwf1 Hslots1].
  split; [done|]. split; [done|].
  assert (∀ l0, is_Some (heap st !! l0) → l0 ≠ fresh (dom (heap st))) as Hfresh.
  { intros l0 Hl0 ->. apply (is_fresh (dom (heap st))). by apply elem_of_dom. }
  unfold declare, new, newParam in Hdecl. simpl in Hdecl.
  destruct (m st !! Name p) as [e|] eqn:Hm.
  - destruct (decide (param_Param e ≠ p)) as [|Heq]; [done|].
    apply dec_stable in Heq. injection Hdecl as <- <-. simpl.
    rewrite insert_id by done. split; [by exists e|]. split; [|split].
    + destruct Hslots as [Halloc _]. destruct (Halloc _ _ Hm) as [v Hv].
      exists v. rewrite lookup_insert_ne; [done|]. intros Hl. by apply (Hfresh (ptr e)).
    + done.
    + intros l0 Hl0. rewrite lookup_insert_ne; [done|]. intros Hl.
      by apply (Hfresh l0).
  - injection Hdecl as <- <-. simpl. split; [|split; [|split]].
    + eexists. split; [apply lookup_insert_eq|done].
    + rewrite lookup_insert_eq. by eexists.
    + intros name Hne. by rewrite lookup_insert_ne.
    + intros l0 Hl0. rewrite lookup_insert_ne; [done|]. intros Hl.
      by apply (Hfresh l0).
Qed.

(** X23.  JSON and RequiredJSON are handed their receiver.  When the name
    is already declared with another receiver, JSON panics even though
    the declaration is the same, while RequiredJSON returns without a
    fault and leaves the package as it was: the first receiver stays the
    slot of the parameter, and the new one will never be filled. *)
Theorem JSON_second_receiver rcv name usage st e :
  m st !! name = Some e → ptr e ≠ rcv →
  (∀ value jValue,
     json_Marshal value = Ok jValue →
     param_Param e = {| ParamType := ParamTypeJSON; Name := name;
                        Default := jValue; Usage := usage; Required := false |} →
     JSON rcv name value usage st = Panic (differs_msg (param_Param e))) ∧
  (param_Param e = {| ParamType := ParamTypeJSON; Name := name; Default := "";
                      Usage := usage; Required := true |} →
   RequiredJSON rcv name usage st = Ok st).
Proof.
  intros Hm Hrcv. split.
  - intros value jValue Hjson Hp. by apply (JSON_other_receiver _ _ _ _ _ jValue).
  - intros Hp. unfold RequiredJSON.
    rewrite (newParam_same _ rcv st e); [done|exact Hm|exact Hp].
Qed.

Lemma declare_first zero p st :
  m st = ∅ →
  declare zero p st
  = Ok (fresh (dom (heap st)),
        {| m := {[ Name p := {| param_Param := p; ptr := fresh (dom (heap st)) |} ]};
           heap := <[fresh (dom (heap st)) := zero]> (heap st);
           tables := tables st; spin := spin st; log := log st |}).
Proof.
  intros Hm. unfold declare, new, newParam. simpl. rewrite Hm, lookup_empty.
  unfold set_m. simpl. by rewrite insert_empty.
Qed.

(* Parse with a single parameter declared whose value converts *)
Lemma Parse_single s st p l vals val parse cur v :
  m st = {[ Name p := {| param_Param := p; ptr := l |} ]} →
  s [p] = Ok vals → raw_value vals p = Ok val →
  paramTypeParsers (tables st) !! ParamType p = Some parse →
  heap st !! l = Some cur → parse val cur = Ok v →
  Parse s st = Ok {| m := ∅; heap := <[l := v]> (heap st); tables := tables st;
                     spin := fst (drain_all (spin st) (log st));
                     log := snd (drain_all (spin st) (log st)) |}.
Proof.
  intros Hm Hs Hraw Hparse Hcur Hv.
  unfold Parse, range_m. rewrite Hm, map_to_list_singleton.
  unfold ParseIn. simpl. rewrite Hs. unfold fill. rewrite Hraw. simpl.
  unfold convert. rewrite Hparse, Hm, lookup_singleton_eq. simpl.
  by rewrite Hcur, Hv.
Qed.

(** X19.  A string declared on a freshly reset package and then parsed
    comes out as the source gave it, or as its default when the source
    has nothing under its name: Parse returns, and the slot the
    declaration returned, which was not allocated before, holds that
    string. *)
Theorem String_Parse_round_trip st name value usage vals :
  paramTypeParsers (tables st) !! ParamTypeString = Some parseParamTypeString →
  ∃ l st1 st2,
    String name value usage (Reset st) = Ok (l, st1) ∧
    heap st !! l = None ∧
    Parse (SourceStub vals) st1 = Ok st2 ∧
    heap st2 !! l = Some (VString (default value (vals !! name))).
Proof.
  intros Hparser. unfold String. rewrite declare_first by done.
  set (p := {| ParamType := ParamTypeString; Name := name; Default := value;
               Usage := usage; Required := false |}).
  eexists _, _, _. split; [done|].
  split. { apply not_elem_of_dom, is_fresh. }
  split.
  - apply (Parse_single (SourceStub vals) _ p (fresh (dom (heap (Reset st))))
             vals (chosen vals p)
             parseParamTypeString (VString "") (VString (chosen vals p))).
    + done.
    + done.
    + by apply raw_value_Ok.
    + exact Hparser.
    + simpl. apply lookup_insert_eq.
    + done.
  - simpl. apply lookup_insert_eq.
Qed.

Lemma no_EQ_dashes name : no_EQ name → no_EQ ("--" +:+ name).
Proof.
  unfold no_EQ. intros Hname.
  change ("--" +:+ name) with (String.String DASH (String.String DASH name)).
  simpl. destruct (decide (DASH = EQ)) as [Heq|_]; [discriminate|]. done.
Qed.

(** X20.  A boolean declared with Bool on a freshly reset package and
    parsed from a source that does not mention it comes out as its
    default.  Parsed from a command line that holds just its bare flag, it
    comes out as the opposite of its default: the flag turns a false
    default on and a true default off. *)
Theorem Bool_bare_flag_flips w st name value usage :
  paramTypeParsers (tables st) !! ParamTypeBool = Some parseParamTypeBool →
  no_EQ name → name ≠ "help" → name ≠ "version" →
  ∃ l st1,
    Bool name value usage (Reset st) = Ok (l, st1) ∧
    (∃ st2, Parse (SourceStub ∅) st1 = Ok st2 ∧
            heap st2 !! l = Some (VBool value)) ∧
    (∀ prog, os_Args w = [prog; "--" +:+ name] →
       ∃ st2, Parse (sourceCLI w) st1 = Ok st2 ∧
              heap st2 !! l = Some (VBool (negb value))).
Proof.
  intros Hparser Hname Hhelp Hversion. unfold Bool.
  rewrite declare_first by done.
  set (p := {| ParamType := ParamTypeBool; Name := name;
               Default := if value then "true" else ""; Usage := usage;
               Required := false |}).
  eexists _, _. split; [done|]. split.
  - eexists. split.
    + apply (Parse_single (SourceStub ∅) _ p (fresh (dom (heap (Reset st))))
               ∅ (Default p)
               parseParamTypeBool (VBool false) (VBool value)).
      * done.
      * done.
      * done.
      * exact Hparser.
      * simpl. apply lookup_insert_eq.
      * simpl. by destruct value.
    + simpl. apply lookup_insert_eq.
  - intros prog Hargs.
    assert (sourceCLI w [p] = Ok {[ name := bareBool p ]}) as Hcli.
    { unfold sourceCLI, parseCLI. rewrite Hargs.
      rewrite (parseCLI_loop_declared w (cliM_of [p]) [p] _ ("--" +:+ name) None p).
      - simpl. by rewrite insert_empty.
      - by apply SplitN2_no_EQ, no_EQ_dashes.
      - change ("--" +:+ name)
          with (String.String "-"%char (String.String "-"%char name)).
        split; (intros [Heq|Heq]; [discriminate Heq|injection Heq as Heq; done]).
      - unfold cliM_of. simpl. apply lookup_insert_eq. }
    eexists. split.
    + apply (Parse_single (sourceCLI w) _ p (fresh (dom (heap (Reset st))))
               {[ name := bareBool p ]} (bareBool p)
               parseParamTypeBool (VBool false) (VBool (negb value))).
      * done.
      * exact Hcli.
      * unfold raw_value. simpl. by rewrite lookup_singleton_eq.
      * exact Hparser.
      * simpl. apply lookup_insert_eq.
      * unfold bareBool. simpl. by destruct value.
    + simpl. apply lookup_insert_eq.
Qed.

(** X21.  When the parser of a parameter's type rejects the value chosen
    for it, and the parameters before it went through, Parse panics with
    "error parsing parameter", the name of the parameter and the parser's
    error; it does not return and does not fall back to the default. *)
Theorem Parse_conversion_failure order s st vals p l before after h1 val
    (parse : ParseFunc) cur err :
  registry_wf st → order ≡ₚ range_m st →
  s (param_Param <$> order) = Ok vals →
  order = before ++ {| param_Param := p; ptr := l |} :: after →
  fill_all (tables st) (m st) vals (param_Param <$> before) (heap st) = Ok h1 →
  raw_value vals p = Ok val →
  paramTypeParsers (tables st) !! ParamType p = Some parse →
  h1 !! l = Some cur → parse val cur = Err err →
  ParseIn order s st = Panic (parsing_msg p err).
Proof.
  intros Hwf Hperm Hs Horder Hbefore Hraw Hparse Hcur Herr.
  pose proof (range_m_stored st order Hwf Hperm) as Hst.
  rewrite Horder in Hst. apply Forall_app in Hst as [_ Hst].
  apply Forall_cons in Hst as [Hp _]. simpl in Hp.
  unfold ParseIn. rewrite Hs. subst order.
  rewrite fmap_app, fill_all_app, Hbefore. simpl.
  unfold fill. rewrite Hraw. simpl. unfold convert, ParseFunc in *.
  rewrite Hparse, Hp. simpl. by rewrite Hcur, Herr.
Qed.

(** X22.  Parse writes to the slots of the declared parameters and to
    nothing else: every other location of the heap, such as the slots
    filled by an earlier Parse, holds after the pass what it held
    before, and the type tables are unchanged. *)
Theorem Parse_writes_declared_slots_only order s st st' :
  registry_wf st → order ≡ₚ range_m st →
  ParseIn order s st = Ok st' →
  tables st' = tables st ∧
  ∀ l, l ∉ ptr <$> order → heap st' !! l = heap st !! l.
Proof.
  intros Hwf Hperm Hparse.
  destruct (ParseIn_drains _ _ _ _ Hparse) as (_ & Htables & _).
  split; [done|]. intros l Hl.
  destruct (s (param_Param <$> order)) as [vals| | |] eqn:Hs;
    [|unfold ParseIn in Hparse; by rewrite Hs in Hparse..].
  apply (fill_all_frame (tables st) (m st) vals order); [|by apply (ParseIn_Ok order s)|done].
  by apply range_m_stored.
Qed.

End ParseMore.

(* ------------------------------------------------------------------ *)
(* The sources and the slice they are handed                           *)
(* ------------------------------------------------------------------ *)

Section SliceFacts.
Context `{GoLib}.
Variable w : World.
Variable t : TypeTables.
Implicit Types (pp : list Param) (S inner : SliceSource) (ss : list SliceSource).

(* A call of parseCLI either comes back with a map and pp as it was, or
   ends the process. *)
Lemma parseCLI_returns_pp_or_exits args pp :
  (∃ vals, parseCLI w args pp = (pp, Ok vals)) ∨
  (∃ text, snd (parseCLI w args pp) = Exit text).
Proof.
  unfold parseCLI.
  destruct (parseCLI_loop_total w (cliM_of pp) pp args ∅) as [Hre _].
  { apply cliM_of_declared. }
  { intros k [v Hk]. by rewrite lookup_empty in Hk. }
  destruct (parseCLI_loop_pp w (cliM_of pp) pp args ∅) as [Hpp|Hhelp].
  - destruct (parseCLI_loop w (cliM_of pp) pp args ∅) as [pp' [vals| | |text]];
      simpl in *; [|done|done|].
    + left. exists vals. by subst.
    + right. by exists text.
  - right. rewrite Hhelp. by eexists.
Qed.

Lemma sourceCLI_slice_outcome pp : snd (sourceCLI_slice w pp) = sourceCLI w pp.
Proof. unfold sourceCLI_slice, sourceCLI. by destruct (os_Args w). Qed.

Lemma sourceCLI_leaves_slice : leaves_slice (sourceCLI_slice w).
Proof.
  intros pp. unfold sourceCLI_slice. destruct (os_Args w) as [|prog args]; [by left|].
  destruct (parseCLI_returns_pp_or_exits args pp) as [[vals ->]|Hexit];
    [by left|by right].
Qed.

Lemma sourceJSON_leaves_slice inner test shared :
  leaves_slice inner → leaves_slice (sourceJSON_slice w t inner test shared).
Proof.
  intros Hinner pp.
  destruct (Hinner (pp ++ [configFileParam])) as [Hfst|[text Hexit]].
  - left. unfold sourceJSON_slice. simpl. destruct shared; [|done].
    by rewrite Hfst, take_app_length.
  - right. exists text. unfold sourceJSON_slice, sourceJSON. simpl.
    by rewrite Hexit.
Qed.

Lemma Sources_slice_loop_leaves ss pp vals :
  Forall leaves_slice ss →
  fst (Sources_slice_loop ss pp vals) = pp ∨
  ∃ text, snd (Sources_slice_loop ss pp vals) = Exit text.
Proof.
  intros Hall. revert pp vals.
  induction Hall as [|S ss HS _ IH]; intros pp vals; simpl; [by left|].
  destruct (HS pp) as [Hfst|[text Hexit]].
  - destruct (snd (S pp)) as [sm| | |text]; simpl.
    + rewrite Hfst. apply IH.
    + by left.
    + by left.
    + right. by exists text.
  - rewrite Hexit. right. by exists text.
Qed.

(* Under sources that leave the slice alone, the composite with the slice
   answers as the composite without it. *)
Lemma Sources_slice_outcome ss pp vals :
  Forall leaves_slice ss →
  snd (Sources_slice_loop ss pp vals)
  = Sources_loop ((λ S pp', snd (S pp')) <$> ss) pp vals.
Proof.
  intros Hall. revert vals.
  induction Hall as [|S ss HS _ IH]; intros vals; simpl; [done|].
  destruct (HS pp) as [Hfst|[text Hexit]].
  - destruct (snd (S pp)) as [sm| | |text]; simpl; [|done..].
    rewrite Hfst. apply IH.
  - by rewrite Hexit.
Qed.

(** C9.  Every call of a shipped source that comes back to its caller
    leaves the slice it was handed as it was.  parseCLI either returns a
    map with pp unchanged or ends the process (only on that path, for the
    help text, is the slice sorted); parseEnv does not write to pp; the
    JSON source leaves pp alone whenever its inner source does, whether or
    not the slice it appends to shares the caller's array; Sources leaves
    pp alone when each of its sources does; and so does the source
    Configure builds from them. *)
Theorem sources_leave_pp :
  (∀ args pp,
     (∃ vals, parseCLI w args pp = (pp, Ok vals)) ∨
     (∃ text, snd (parseCLI w args pp) = Exit text)) ∧
  leaves_slice (sourceCLI_slice w) ∧
  leaves_slice (sourceEnv_slice w) ∧
  (∀ inner test shared,
     leaves_slice inner → leaves_slice (sourceJSON_slice w t inner test shared)) ∧
  (∀ ss, Forall leaves_slice ss → leaves_slice (Sources_slice ss)) ∧
  (∀ test shared,
     leaves_slice
       (sourceJSON_slice w t
          (Sources_slice [sourceEnv_slice w; sourceCLI_slice w]) test shared)).
Proof.
  assert (leaves_slice (sourceEnv_slice w)) as Henv by (intros pp; by left).
  assert (∀ ss, Forall leaves_slice ss → leaves_slice (Sources_slice ss)) as Hss.
  { intros ss Hall pp. by apply Sources_slice_loop_leaves. }
  split; [apply parseCLI_returns_pp_or_exits|].
  split; [apply sourceCLI_leaves_slice|]. split; [exact Henv|].
  split; [apply sourceJSON_leaves_slice|]. split; [exact Hss|].
  intros test shared. apply sourceJSON_leaves_slice, Hss.
  apply Forall_cons. split; [exact Henv|].
  apply Forall_cons. split; [apply sourceCLI_leaves_slice|apply Forall_nil_2].
Qed.

End SliceFacts.

(* ------------------------------------------------------------------ *)
(* Runs on concrete inputs                                             *)
(* ------------------------------------------------------------------ *)

Section Runs.
#[local] Existing Instance Example.lib.

Example TestCLI :
  parseCLI Example.world
    ["--foo"; "bats"; "--bar=butts"; "--flag1"; "--flag2"; "false";
     "something"; "something=else"; "something"; "else"; "--unk=wat"]
    testParams
  = (testParams,
     Ok {[ "foo" := "bats"; "bar" := "butts"; "flag1" := "true";
           "flag2" := "false" ]}).
Proof. vm_compute. reflexivity. Qed.

Example TestSourceEnv :
  parseEnv ["FOO="; "BAR=bar"; "FLAG1=true"; "HOME=whatever"; "FOO_BAR=okthen"]
    testParams
  = Ok {[ "foo" := ""; "bar" := "bar"; "flag1" := "true"; "foo-bar" := "okthen" ]}.
Proof. vm_compute. reflexivity. Qed.

Lemma newParam_declare_twice_witness :
  ∃ st1, newParam db_addr 7 start = Ok (7, st1) ∧
         newParam db_addr 8 st1 = Ok (7, st1) ∧
         newParam db_addr_other_default 8 st1
           = Panic (differs_msg db_addr_other_default).
Proof.
  destruct (newParam_declare_twice db_addr db_addr_other_default 7 8 start)
    as (st1 & H1 & _ & H2 & H3).
  - reflexivity.
  - reflexivity.
  - discriminate.
  - exists st1. split; [exact H1|]. split; [exact H2|exact H3].
Defined.

Lemma Reset_returns_to_accepting_witness :
  ∃ closed,
    Parse (SourceStub ∅) (Do (Emit "first" Return) (Reset start)) = Ok closed ∧
    log (Do (Emit "late" Return) closed) = ["first"; "late"] ∧
    log (Do (Emit "queued" Return) (Reset closed)) = ["first"] ∧
    spin (Do (Emit "queued" Return) (Reset closed))
      = Spinning [noop; Emit "queued" Return].
Proof.
  rewrite Parse_nothing_declared by done. eexists. split; [reflexivity|].
  match goal with |- context [Do _ ?c] =>
    destruct (Reset_returns_to_accepting c (Emit "late" Return) eq_refl)
      as (Hlate & _);
    destruct (Reset_returns_to_accepting c (Emit "queued" Return) eq_refl)
      as (_ & _ & _ & Hlog & Hspin & _)
  end.
  split; [exact Hlate|]. split; [exact Hlog|exact Hspin].
Defined.

Example String_declares_str :
  String "str" "x" "Some string" start = Ok (0, declared_str).
Proof. vm_compute. reflexivity. Qed.

Lemma Parse_resolves_by_precedence_witness :
  ∃ st', Parse (SourceStub ∅) declared_str = Ok st' ∧
         heap st' !! 0 = Some (VString "x").
Proof.
  pose (st' := {| m := ∅; heap := {[ 0 := VString "x" ]}; tables := builtinTables;
                  spin := Stopped; log := [] |}).
  assert (Parse (SourceStub ∅) declared_str = Ok st') as Hparse
    by (vm_compute; reflexivity).
  exists st'. split; [exact Hparse|].
  destruct (declare_wf (VString "") str_param start (0, declared_str)
              start_wf start_slots_wf String_declares_str) as [Hwf Hslots].
  destruct (Parse_resolves_by_precedence (range_m declared_str) (SourceStub ∅)
              declared_str ∅ str_param 0) as [_ Hvalue].
  - exact Hwf.
  - exact Hslots.
  - reflexivity.
  - reflexivity.
  - vm_compute. apply list_elem_of_here.
  - destruct (Hvalue st' Hparse) as (_ & parse & cur & v & Hp & Hcur & Hv & Hl).
    change (Some parseParamTypeString = Some parse) in Hp. injection Hp as <-.
    change (Some (VString "") = Some cur) in Hcur. injection Hcur as <-.
    change (Ok (VString "x") = Ok v) in Hv. injection Hv as <-.
    exact Hl.
Defined.

Example RequiredString_declares_foo :
  RequiredString "foo" "Some string" start = Ok (0, declared_foo).
Proof. vm_compute. reflexivity. Qed.

Lemma Parse_required_empty_value_witness :
  ∃ st', Parse (sourceEnv world_FOO_empty) declared_foo = Ok st' ∧
         heap st' !! 0 = Some (VString "").
Proof.
  destruct (declare_wf (VString "") foo_required start (0, declared_foo)
              start_wf start_slots_wf RequiredString_declares_foo) as [Hwf Hslots].
  destruct (Parse_required_empty_value (range_m declared_foo)
              (sourceEnv world_FOO_empty) declared_foo {[ "foo" := "" ]}
              foo_required 0) as (_ & _ & _ & Hstring).
  - exact Hwf.
  - exact Hslots.
  - reflexivity.
  - vm_compute. reflexivity.
  - vm_compute. apply list_elem_of_here.
  - reflexivity.
  - reflexivity.
  - destruct (Hstring eq_refl) as [_ Halone].
    apply (Halone ""); [vm_compute; reflexivity|reflexivity].
Defined.


Lemma sourceJSON_null_absent_inner_wins_witness :
  sourceJSON Example.world builtinTables (SourceStub {[ "b" := "9" ]})
    (Some "null-doc") abc_params
  = Ok {[ "b" := "9"; "c" := "2" ]}.
Proof.
  destruct (sourceJSON_null_absent_inner_wins Example.world builtinTables
              (SourceStub {[ "b" := "9" ]}) (Some "null-doc") abc_params
              {[ "b" := "9" ]} "null-doc"
              {[ "a" := "null"; "b" := "1"; "c" := "2" ]}) as [Hrun _].
  - reflexivity.
  - reflexivity.
  - reflexivity.
  - rewrite Hrun. vm_compute. reflexivity.
Defined.

(* Witnesses of the further properties *)

Lemma Do_calls_in_registration_order_witness :
  ∃ st', Parse (SourceStub ∅)
           (Do_each [Emit "a" Return; Emit "b" Return; Emit "c" Return]
              (Reset start)) = Ok st' ∧
         log st' = ["a"; "b"; "c"].
Proof.
  destruct (Do_calls_in_registration_order start
              [Emit "a" Return; Emit "b" Return; Emit "c" Return] ∅)
    as (st' & Hparse & Hlog & _).
  - repeat constructor.
  - exists st'. split; [exact Hparse|exact Hlog].
Defined.

Lemma drain_queues_behind_witness :
  drain_all (Spinning [A_with_nested_B; Emit "C" Return]) []
  = (Stopped, ["A begins"; "A ends"; "C"; "B"]).
Proof.
  destruct (drain_queues_behind A_with_nested_B [Emit "C" Return] [])
    as (_ & _ & _ & Hlog).
  - discriminate.
  - apply Hlog; repeat constructor.
Defined.

Lemma Parse_runs_each_once_witness :
  ∃ st', Parse (SourceStub ∅)
           (Do (Emit "C" Return) (Do A_with_nested_B (Reset start))) = Ok st' ∧
         log st' ≡ₚ ["A begins"; "B"; "A ends"; "C"].
Proof.
  eexists. split; [by rewrite Parse_nothing_declared|].
  edestruct (Parse_runs_each_once
               (range_m (Do (Emit "C" Return) (Do A_with_nested_B (Reset start))))
               (SourceStub ∅)
               (Do (Emit "C" Return) (Do A_with_nested_B (Reset start))))
    as [Hperm _].
  - discriminate.
  - exact (Parse_nothing_declared
             (Do (Emit "C" Return) (Do A_with_nested_B (Reset start))) ∅ eq_refl).
  - exact Hperm.
Defined.

Lemma Parse_closes_witness :
  ∃ st', Parse (SourceStub ∅) (Do A_with_nested_B (Reset start)) = Ok st' ∧
         spin st' = Stopped ∧
         Parse (SourceStub {[ "x" := "y" ]}) st' = Ok st'.
Proof.
  eexists. split; [by rewrite Parse_nothing_declared|].
  edestruct (Parse_closes (range_m (Do A_with_nested_B (Reset start)))
               (SourceStub ∅) (Do A_with_nested_B (Reset start)))
    as (_ & Hspin & _ & Hagain).
  - discriminate.
  - exact (Parse_nothing_declared (Do A_with_nested_B (Reset start)) ∅ eq_refl).
  - split; [exact Hspin|apply Hagain].
Defined.

Lemma parseEnv_malformed_witness :
  parseEnv ["FOO=1"; "BROKEN"; "BAR=2"] testParams
  = Err ("malformed environment variable: " +:+ strconv_Quote "BROKEN").
Proof.
  destruct (parseEnv_malformed ["FOO=1"] testParams) as [_ Herr].
  - constructor; [by eexists|constructor].
  - apply (Herr "BROKEN" ["BAR=2"]). reflexivity.
Defined.

Lemma parseEnv_reads_declared_witness :
  ∃ ret, parseEnv ["FOO=1"; "FOO=2"; "HOME=x"] testParams = Ok ret ∧
         ret !! "foo" = Some "2" ∧ ret !! "bar" = None.
Proof.
  assert (parseEnv ["FOO=1"; "FOO=2"; "HOME=x"] testParams = Ok {[ "foo" := "2" ]})
    as Hrun by (vm_compute; reflexivity).
  destruct (parseEnv_reads_declared _ _ _ Hrun) as [_ Hread].
  exists {[ "foo" := "2" ]}. split; [exact Hrun|].
  assert (NoDup (envName <$> testParams)) as Hnd
    by (apply (bool_decide_unpack _); vm_compute; exact I).
  split.
  - apply (Hread Hnd foo_param). apply list_elem_of_here.
  - apply (Hread Hnd {| ParamType := ParamTypeString; Name := "bar"; Default := "";
                         Usage := "wut"; Required := false |}).
    apply list_elem_of_further, list_elem_of_here.
Defined.

Lemma parseCLI_never_fails_witness :
  ∃ found,
    parseCLI Example.world ["--foo"; "bats"; "something"; "--unk=wat"] testParams
    = (testParams, Ok found).
Proof.
  destruct (parseCLI_never_fails Example.world
              ["--foo"; "bats"; "something"; "--unk=wat"] testParams)
    as [_ Hok].
  destruct Hok as (found & Hfound & _).
  - repeat (constructor; [split; intros [Heq|Heq]; vm_compute in Heq; discriminate|]).
    constructor.
  - by exists found.
Defined.


Lemma NewSourceJSON_without_file_witness :
  NewSourceJSON Example.world builtinTables (SourceStub {[ "b" := "9" ]}) abc_params
  = Ok {[ "b" := "9" ]}.
Proof.
  rewrite NewSourceJSON_without_file; [reflexivity|].
  intros m0 [= <-]. left. reflexivity.
Defined.

Lemma sourceJSON_file_errors_witness :
  sourceJSON Example.world builtinTables
    (SourceStub {[ "config-json-file" := "/etc/app.json" ]})
    (Some "null-doc") abc_params
  = Err "no such file".
Proof.
  destruct (sourceJSON_file_errors Example.world builtinTables
              (SourceStub {[ "config-json-file" := "/etc/app.json" ]})
              (Some "null-doc") abc_params
              {[ "config-json-file" := "/etc/app.json" ]} "/etc/app.json")
    as (Hopen & _).
  - reflexivity.
  - reflexivity.
  - discriminate.
  - by apply Hopen.
Defined.

Lemma sourceJSON_int64_panics_witness :
  sourceJSON Example.world builtinTables (SourceStub ∅) (Some "null-doc") [int64_b]
  = Panic nil_func_call.
Proof.
  destruct (sourceJSON_int64_panics Example.world (SourceStub ∅) (Some "null-doc")
              [int64_b] ∅ "null-doc" {[ "a" := "null"; "b" := "1"; "c" := "2" ]}
              int64_b "1") as (_ & _ & Hfirst).
  - reflexivity.
  - reflexivity.
  - reflexivity.
  - apply list_elem_of_here.
  - reflexivity.
  - reflexivity.
  - discriminate.
  - by apply (Hfirst []).
Defined.

Lemma Configure_source_precedence_witness :
  ∃ vals, Configure_source world_cli_env builtinTables testParams = Ok vals ∧
          vals !! "foo" = Some "cli" ∧ vals !! "bar" = Some "envbar".
Proof.
  assert (Configure_source world_cli_env builtinTables testParams
          = Ok {[ "foo" := "cli"; "bar" := "envbar" ]}) as Hrun
    by (vm_compute; reflexivity).
  pose proof (Configure_source_precedence world_cli_env builtinTables testParams
                {[ "foo" := "env"; "bar" := "envbar" ]} {[ "foo" := "cli" ]}
                {[ "foo" := "cli"; "bar" := "envbar" ]}) as Hprec.
  assert (sourceEnv world_cli_env (testParams ++ [configFileParam])
          = Ok {[ "foo" := "env"; "bar" := "envbar" ]}) as Henv
    by (vm_compute; reflexivity).
  assert (sourceCLI world_cli_env (testParams ++ [configFileParam])
          = Ok {[ "foo" := "cli" ]}) as Hcli
    by (vm_compute; reflexivity).
  eexists. split; [exact Hrun|]. split.
  - exact (proj1 (Hprec Henv Hcli Hrun "foo" "cli") eq_refl).
  - exact (proj2 (Hprec Henv Hcli Hrun "bar" "envbar") eq_refl eq_refl).
Defined.

Lemma CustomParamType_registers_witness :
  ∃ t', CustomParamType "time" (VAny "now") parseParamTypeJSON JSONStringAsIs
          builtinTables = Ok t' ∧
        customParamTypeTypes t' !! "time" = Some (VAny "") ∧
        paramTypeParsers t' !! ParamTypeInt = Some parseParamTypeInt ∧
        CustomParamType "time" (VAny "now") parseParamTypeJSON JSONStringAsIs t'
        = Panic "lflag: paramType already defined: time".
Proof.
  destruct (CustomParamType_registers "time" (VAny "now") parseParamTypeJSON
              JSONStringAsIs builtinTables)
    as (t' & Hreg & _ & _ & Htype & Hother & Hagain).
  - reflexivity.
  - exists t'. split; [exact Hreg|]. split; [exact Htype|]. split.
    + destruct (Hother ParamTypeInt) as [Hint _]; [discriminate|].
      etrans; [exact Hint|reflexivity].
    + apply Hagain.
Defined.

Lemma declare_keeps_slots_witness :
  registry_wf declared_str ∧ slots_wf declared_str ∧
  is_Some (heap declared_str !! 0).
Proof.
  destruct (declare_keeps_slots (VString "") str_param start 0 declared_str
              start_wf start_slots_wf String_declares_str)
    as (Hwf & Hslots & _ & Halloc & _).
  split; [exact Hwf|]. split; [exact Hslots|exact Halloc].
Defined.

Lemma String_Parse_round_trip_witness :
  ∃ l st1 st2,
    String "str" "x" "Some string" (Reset start) = Ok (l, st1) ∧
    Parse (SourceStub {[ "str" := "hello" ]}) st1 = Ok st2 ∧
    heap st2 !! l = Some (VString "hello").
Proof.
  destruct (String_Parse_round_trip start "str" "x" "Some string"
              {[ "str" := "hello" ]} eq_refl)
    as (l & st1 & st2 & Hdecl & _ & Hparse & Hslot).
  exists l, st1, st2. split; [exact Hdecl|]. split; [exact Hparse|exact Hslot].
Defined.

Lemma Bool_bare_flag_flips_witness :
  ∃ l st1 st2,
    Bool "verbose" true "Chatty" (Reset start) = Ok (l, st1) ∧
    Parse (sourceCLI world_verbose) st1 = Ok st2 ∧
    heap st2 !! l = Some (VBool false).
Proof.
  destruct (Bool_bare_flag_flips world_verbose start "verbose" true "Chatty")
    as (l & st1 & Hdecl & _ & Hflag).
  - reflexivity.
  - reflexivity.
  - discriminate.
  - discriminate.
  - destruct (Hflag "prog" eq_refl) as (st2 & Hparse & Hslot).
    exists l, st1, st2. split; [exact Hdecl|]. split; [exact Hparse|exact Hslot].
Defined.

Lemma Parse_conversion_failure_witness :
  Parse (SourceStub {[ "int" := "abc" ]}) declared_int
  = Panic (parsing_msg int_param "invalid syntax").
Proof.
  apply (Parse_conversion_failure (range_m declared_int)
           (SourceStub {[ "int" := "abc" ]}) declared_int {[ "int" := "abc" ]}
           int_param 0 [] [] (heap declared_int) "abc" parseParamTypeInt (VInt 0)
           "invalid syntax").
  - by apply map_Forall_singleton.
  - reflexivity.
  - reflexivity.
  - vm_compute. reflexivity.
  - reflexivity.
  - reflexivity.
  - reflexivity.
  - reflexivity.
  - reflexivity.
Defined.

Lemma Parse_writes_declared_slots_only_witness :
  ∃ st', Parse (SourceStub ∅) declared_str_with_old = Ok st' ∧
         heap st' !! 5 = Some (VInt 9).
Proof.
  assert (Parse (SourceStub ∅) declared_str_with_old
          = Ok {| m := ∅; heap := {[ 0 := VString "x"; 5 := VInt 9 ]};
                  tables := builtinTables; spin := Stopped; log := [] |}) as Hparse
    by (vm_compute; reflexivity).
  eexists. split; [exact Hparse|].
  destruct (Parse_writes_declared_slots_only (range_m declared_str_with_old)
              (SourceStub ∅) declared_str_with_old _
              ltac:(by apply map_Forall_singleton) ltac:(reflexivity) Hparse)
    as [_ Hframe].
  etrans; [apply (Hframe 5)|reflexivity].
  vm_compute. intros Hin. apply list_elem_of_In in Hin. simpl in Hin.
  destruct Hin as [Heq|[]]. discriminate Heq.
Defined.

Lemma JSON_second_receiver_witness :
  RequiredJSON 3 "json" "Some json" (set_heap {[ 3 := VAny ""; 4 := VAny "" ]} start)
    = Ok declared_json ∧
  RequiredJSON 4 "json" "Some json" declared_json = Ok declared_json.
Proof.
  split; [vm_compute; reflexivity|].
  destruct (JSON_second_receiver 4 "json" "Some json" declared_json
              {| param_Param := json_required; ptr := 3 |}) as [_ Hreq].
  - reflexivity.
  - discriminate.
  - by apply Hreq.
Defined.

Lemma sources_leave_pp_witness :
  fst (parseCLI Example.world ["--b"; "x"; "--unknown"] [param_b; param_a])
    = [param_b; param_a] ∧
  fst (sourceJSON_slice world_cli_env builtinTables
         (Sources_slice [sourceEnv_slice world_cli_env; sourceCLI_slice world_cli_env])
         None true [param_b; param_a])
    = [param_b; param_a].
Proof.
  destruct (sources_leave_pp Example.world builtinTables)
    as (Hcli & _).
  destruct (sources_leave_pp world_cli_env builtinTables)
    as (_ & _ & _ & _ & _ & Hconf).
  split.
  - destruct (Hcli ["--b"; "x"; "--unknown"] [param_b; param_a])
      as [[vals ->]|[text Hexit]]; [reflexivity|].
    vm_compute in Hexit. discriminate Hexit.
  - destruct (Hconf None true [param_b; param_a]) as [Hfst|[text Hexit]];
      [exact Hfst|].
    vm_compute in Hexit. discriminate Hexit.
Defined.

Lemma Prefixed_in_steps_witness :
  Prefixed ["db"; ""; "pool"; "size"] = "db-pool-size" ∧
  Prefixed [Prefixed ["db"; ""]; Prefixed ["pool"; "size"]] = "db-pool-size".
Proof.
  destruct (Prefixed_in_steps ["db"; ""] ["pool"; "size"]) as (_ & _ & Hsteps & _).
  destruct (Prefixed_in_steps [""; "pool"; "size"] []) as (_ & Hcons & _).
  split.
  - rewrite (Hcons "db"). reflexivity.
  - rewrite Hsteps. reflexivity.
Defined.

End Runs.
